(** * fix-mocks.py: a one-shot literal text patcher

    The script reads one test file as UTF-8 text, rewrites two spellings of
    a mock name into one cast expression with [str.replace], writes the text
    back to the same path and prints a notice.

    The development has three layers:
    - text: Python strings as lists of code points, [str.find] and
      [str.replace], and the declarative reading of "leftmost,
      non-overlapping replacement";
    - text files: what [open(..., encoding='utf-8')] does between the bytes
      of a file and the text the script sees (strict UTF-8, universal
      newlines on input, [os.linesep] on output);
    - the run: the file store, standard output, the exceptions of the script
      and the script itself. *)

From Stdlib Require Import NArith ZArith Lia String Ascii.
From Stdlib.Strings Require Import Byte.
From stdpp Require Import base option list gmap strings fin_maps.


(** * Part I: the program *)

(** ** Text *)

(** A Python [str] is a sequence of Unicode code points. *)
Abbreviation text := (list N).

(** A Python string literal made of ASCII characters. *)
Definition str (s : string) : text :=
  N_of_ascii <$> list_ascii_of_string s.

(** [T.startswith(s)] *)
Fixpoint startswith (T s : text) {struct s} : bool :=
  match s, T with
  | [], _ => true
  | _ :: _, [] => false
  | a :: s', c :: T' => if N.eqb a c then startswith T' s' else false
  end.

(** [T.find(s)]: the lowest index at which [s] occurs in [T]; Python
    returns -1 where this returns [None]. *)
Fixpoint find (T s : text) {struct T} : option nat :=
  if startswith T s then Some 0
  else match T with
       | [] => None
       | _ :: T' => S <$> find T' s
       end.

(** The copy loop of [str.replace]: find the next occurrence from the
    current position, copy the text before it, copy the replacement, go on
    after the occurrence.  CPython runs the loop once per occurrence counted
    beforehand; [n] bounds the number of rounds. *)
Fixpoint replace_loop (n : nat) (T s r : text) : text :=
  match n with
  | 0 => T
  | S n' =>
      match find T s with
      | None => T
      | Some j => take j T ++ r ++ replace_loop n' (drop (j + length s) T) s r
      end
  end.

(** [T.replace(s, r)].  With an empty [s] Python puts [r] before every
    character and at the end. *)
Definition replace (T s r : text) : text :=
  match s with
  | [] => r ++ (T ≫= λ c, c :: r)
  | _ :: _ => replace_loop (length T) T s r
  end.
Arguments replace : simpl never.

(** [s in T] *)
Definition contains (T s : text) : bool :=
  match find T s with Some _ => true | None => false end.

(** ** Text files: encoding and line endings *)

Local Open Scope N_scope.

Definition between (lo hi n : N) : bool := (lo <=? n) && (n <=? hi).

(** A UTF-8 continuation byte. *)
Definition cont (n : N) : bool := between 0x80 0xBF n.

(** The second byte of a three-byte and of a four-byte sequence: the ranges
    that exclude overlong forms, surrogates and values above U+10FFFF. *)
Definition second3 (n0 n1 : N) : bool :=
  if n0 =? 0xE0 then between 0xA0 0xBF n1
  else if n0 =? 0xED then between 0x80 0x9F n1
  else cont n1.

Definition second4 (n0 n1 : N) : bool :=
  if n0 =? 0xF0 then between 0x90 0xBF n1
  else if n0 =? 0xF4 then between 0x80 0x8F n1
  else cont n1.

(** [bytes.decode('utf-8')] with the default strict error handler: [None]
    stands for [UnicodeDecodeError]. *)
Fixpoint utf8_decode (bs : list byte) : option text :=
  match bs with
  | [] => Some []
  | b0 :: rest =>
      let n0 := Byte.to_N b0 in
      if n0 <? 0x80 then cons n0 <$> utf8_decode rest
      else if between 0xC2 0xDF n0 then
        match rest with
        | b1 :: rest =>
            let n1 := Byte.to_N b1 in
            if cont n1
            then cons ((n0 - 0xC0) * 0x40 + (n1 - 0x80)) <$> utf8_decode rest
            else None
        | _ => None
        end
      else if between 0xE0 0xEF n0 then
        match rest with
        | b1 :: b2 :: rest =>
            let n1 := Byte.to_N b1 in
            let n2 := Byte.to_N b2 in
            if second3 n0 n1 && cont n2
            then cons ((n0 - 0xE0) * 0x1000 + (n1 - 0x80) * 0x40 + (n2 - 0x80))
                   <$> utf8_decode rest
            else None
        | _ => None
        end
      else if between 0xF0 0xF4 n0 then
        match rest with
        | b1 :: b2 :: b3 :: rest =>
            let n1 := Byte.to_N b1 in
            let n2 := Byte.to_N b2 in
            let n3 := Byte.to_N b3 in
            if second4 n0 n1 && cont n2 && cont n3
            then cons ((n0 - 0xF0) * 0x40000 + (n1 - 0x80) * 0x1000
                       + (n2 - 0x80) * 0x40 + (n3 - 0x80))
                   <$> utf8_decode rest
            else None
        | _ => None
        end
      else None
  end.

Definition byte_of (n : N) : byte := default x00 (Byte.of_N n).

(** One code point to UTF-8.  A lone surrogate cannot be encoded
    ([UnicodeEncodeError]); values above U+10FFFF are not code points. *)
Definition utf8_encode_char (c : N) : option (list byte) :=
  if c <? 0x80 then Some [byte_of c]
  else if c <? 0x800 then
    Some [byte_of (0xC0 + c / 0x40); byte_of (0x80 + c mod 0x40)]
  else if between 0xD800 0xDFFF c then None
  else if c <? 0x10000 then
    Some [byte_of (0xE0 + c / 0x1000); byte_of (0x80 + (c / 0x40) mod 0x40);
          byte_of (0x80 + c mod 0x40)]
  else if c <? 0x110000 then
    Some [byte_of (0xF0 + c / 0x40000); byte_of (0x80 + (c / 0x1000) mod 0x40);
          byte_of (0x80 + (c / 0x40) mod 0x40); byte_of (0x80 + c mod 0x40)]
  else None.

(** [str.encode('utf-8')], strict. *)
Fixpoint utf8_encode (t : text) : option (list byte) :=
  match t with
  | [] => Some []
  | c :: t' =>
      bs ← utf8_encode_char c;
      bs' ← utf8_encode t';
      Some (bs ++ bs')
  end.

Definition LF : N := 10.
Definition CR : N := 13.

(** Reading with [newline=None] (the default of [open]): universal
    newlines.  CR LF and a lone CR both reach the caller as LF. *)
Fixpoint universal_newlines (t : text) : text :=
  match t with
  | [] => []
  | c :: t' =>
      if c =? CR then
        LF :: match t' with
              | c' :: t'' =>
                  if c' =? LF then universal_newlines t''
                  else universal_newlines t'
              | [] => []
              end
      else c :: universal_newlines t'
  end.

(** The platform decides [os.linesep]. *)
Inductive platform := Posix | Windows.

Definition linesep (pf : platform) : text :=
  match pf with
  | Posix => [LF]
  | Windows => [CR; LF]
  end.

(** Writing with [newline=None]: every LF written becomes [os.linesep]. *)
Definition write_newlines (pf : platform) (t : text) : text :=
  t ≫= λ c, if c =? LF then linesep pf else [c].

Local Close Scope N_scope.

(** ** The world the script runs in *)

Record file := File {
  data : list byte;
  readable : bool;
  writable : bool
}.

Inductive mode := R | W.

(** The file store, what has been printed so far (one entry per line), the
    log of [open] calls, and the process inputs the script never looks at. *)
Record world := World {
  files : gmap string file;
  stdout : list string;
  opened : list (string * mode);
  argv : list string;
  environ : gmap string string
}.

Definition set_files (fs : gmap string file) (w : world) : world :=
  World fs (stdout w) (opened w) (argv w) (environ w).

Definition set_stdout (out : list string) (w : world) : world :=
  World (files w) out (opened w) (argv w) (environ w).

Definition set_opened (l : list (string * mode)) (w : world) : world :=
  World (files w) (stdout w) l (argv w) (environ w).

(** The exceptions the script can die of. *)
Inductive exn :=
| FileNotFoundError
| PermissionError
| UnicodeDecodeError
| UnicodeEncodeError.

(** [FileNotFoundError] and [PermissionError] are the [OSError]s. *)
Definition is_OSError (e : exn) : bool :=
  match e with
  | FileNotFoundError | PermissionError => true
  | _ => false
  end.

Inductive result (A : Type) :=
| Ok (a : A)
| Raise (e : exn).
Arguments Ok {A} a.
Arguments Raise {A} e.

(** A statement: it runs in a world, returns or raises, and leaves a world.
    Nothing in the script catches an exception, so [Raise] skips the rest. *)
Definition io (A : Type) : Type := world → result A * world.

#[global] Instance io_ret : MRet io := λ A a w, (Ok a, w).

#[global] Instance io_bind : MBind io := λ A B k m w,
  match m w with
  | (Ok a, w') => k a w'
  | (Raise e, w') => (Raise e, w')
  end.

(** An open file object; it names the file it was opened on. *)
Abbreviation handle := string.

(** [open(path, 'r', encoding='utf-8')] and [open(path, 'w',
    encoding='utf-8')].  Opening for writing creates a missing file and
    empties an existing one at once. *)
Definition open_ (path : string) (m : mode) : io handle := λ w,
  let w := set_opened (opened w ++ [(path, m)]) w in
  match m, files w !! path with
  | R, None => (Raise FileNotFoundError, w)
  | R, Some f =>
      if readable f then (Ok path, w) else (Raise PermissionError, w)
  | W, None => (Ok path, set_files (<[path := File [] true true]> (files w)) w)
  | W, Some f =>
      if writable f
      then (Ok path, set_files (<[path := File [] (readable f) true]> (files w)) w)
      else (Raise PermissionError, w)
  end.

(** The bytes behind a handle ([open_] made sure the file is there). *)
Definition bytes_of (f : handle) (w : world) : list byte :=
  default [] (data <$> files w !! f).

(** [f.read()]: the whole file, decoded, with universal newlines. *)
Definition read (f : handle) : io text := λ w,
  match utf8_decode (bytes_of f w) with
  | None => (Raise UnicodeDecodeError, w)
  | Some t => (Ok (universal_newlines t), w)
  end.

(** [f.write(s)] followed by the close at the end of the [with] block:
    the text is encoded in one go, so an encoding error leaves the file as
    [open_] left it. *)
Definition write (pf : platform) (f : handle) (s : text) : io unit := λ w,
  match utf8_encode (write_newlines pf s) with
  | None => (Raise UnicodeEncodeError, w)
  | Some bs =>
      (Ok (), set_files (alter (λ x, File bs (readable x) (writable x)) f (files w)) w)
  end.

(** [print(line)] *)
Definition print (line : string) : io unit := λ w,
  (Ok (), set_stdout (stdout w ++ [line]) w).

(** ** The script *)

Definition filepath : string :=
  "d:\React JS\UIDAM-React\uidam-ecsp\uidam-portal-padmaja\src\features\user-management\UserManagement.test.tsx".

(** Lines 9 and 10: the two [content = content.replace(...)] statements. *)
Definition transform (content : text) : text :=
  let content :=
    replace content (str "mockFilterUsersV2")
                    (str "(UserService.filterUsersV2 as jest.Mock)") in
  let content :=
    replace content (str "mockfilterUsersV2")
                    (str "(UserService.filterUsersV2 as jest.Mock)") in
  content.

(** The two search strings and the replacement of lines 9 and 10. *)
Definition search_F : text := str "mockFilterUsersV2".
Definition search_f : text := str "mockfilterUsersV2".
Definition replacement : text := str "(UserService.filterUsersV2 as jest.Mock)".

(** Both search strings start with [m]; the replacement starts with an
    opening parenthesis. *)
Definition marker : N := 109.
Definition paren : N := 40.
Definition tail_F : text := str "ockFilterUsersV2".
Definition tail_f : text := str "ockfilterUsersV2".
Definition tail_r : text := str "UserService.filterUsersV2 as jest.Mock)".

(** Lines 5 and 6: the first [with] block. *)
Definition read_block : io text :=
  f ← open_ filepath R;
  read f.

(** Lines 12 and 13: the second [with] block. *)
Definition write_block (pf : platform) (content : text) : io unit :=
  f ← open_ filepath W;
  write pf f content.

(** Lines 5 to 15. *)
Definition main (pf : platform) : io unit :=
  content ← read_block;
  let content := transform content in
  write_block pf content;;
  print "Successfully replaced all mock references".

(** ** The specification's vocabulary *)

(** The line the script prints. *)
Definition notice : string := "Successfully replaced all mock references".

(** The code points that have a UTF-8 encoding: everything up to U+10FFFF
    but the surrogates. *)
Definition scalar (c : N) : Prop :=
  (c < 0xD800 ∨ (0xE000 ≤ c ∧ c ≤ 0x10FFFF))%N.

(** The world with the open for reading logged, with both opens logged,
    and the world a run leaves when every statement goes through and [bs]
    are the bytes written. *)
Definition log_r (w : world) : world :=
  set_opened (opened w ++ [(filepath, R)]) w.

Definition log_rw (w : world) : world :=
  set_opened (opened w ++ [(filepath, R); (filepath, W)]) w.

Definition after_success (bs : list byte) (w : world) : world :=
  World (<[filepath := File bs true true]> (files w))
        (stdout w ++ [notice])
        (opened w ++ [(filepath, R); (filepath, W)])
        (argv w) (environ w).

(** The two [with] blocks both go through. *)
Definition steps_complete (pf : platform) (w : world) : Prop :=
  ∃ content w1 w2,
    read_block w = (Ok content, w1) ∧
    write_block pf (transform content) w1 = (Ok (), w2).

(** ** Sample worlds *)

(** A world with nothing but the target file. *)
Definition world_of (f : file) : world :=
  World {[ filepath := f ]} [] [] [] ∅.

Definition empty_world : world := World ∅ [] [] [] ∅.

(** The bytes of [a LF b] and of [a CR LF b]: two lines, no search
    string. *)
Definition lf_bytes : list byte := [x61; x0a; x62].
Definition crlf_bytes : list byte := [x61; x0d; x0a; x62].

(** The target file next to another file, with arguments and environment. *)
Definition busy_world (f : file) : world :=
  World (<[ "README.md" := File [x68; x69] true true ]> {[ filepath := f ]})
        ["earlier output"] [("README.md", R)] ["fix-mocks.py"; "--dry-run"]
        {[ "HOME" := "/root" ]}.

(** [s] occurs in [T] at index [i]. *)
Definition occurs_at (s : text) (i : nat) (T : text) : Prop :=
  ∃ u v, T = u ++ s ++ v ∧ length u = i.

Definition occurs (s T : text) : Prop := ∃ i, occurs_at s i T.

(** Leftmost, non-overlapping replacement of every occurrence of [s] by [r],
    as the specification words it: the leftmost occurrence is replaced, and
    scanning goes on right after it, in the rest of the original text. *)
Inductive Replaced (s r : text) : text → text → Prop :=
| Replaced_none T :
    ¬ occurs s T → Replaced s r T T
| Replaced_leftmost u v v' :
    (∀ i, i < length u → ¬ occurs_at s i (u ++ s ++ v)) →
    Replaced s r v v' →
    Replaced s r (u ++ s ++ v) (u ++ r ++ v').

(** Two rules with one replacement, the second applied to the result of the
    first. *)
Definition two_rules (a b r : text) (T : text) : text :=
  replace (replace T a r) b r.

(** [T2] is [T1] with some occurrences of [a] written as [b] instead, at
    the same places, and is the same text everywhere else. *)
Inductive respelled (a b : text) : text → text → Prop :=
| respelled_nil : respelled a b [] []
| respelled_same c T1 T2 :
    respelled a b T1 T2 → respelled a b (c :: T1) (c :: T2)
| respelled_here T1 T2 :
    respelled a b T1 T2 → respelled a b (a ++ T1) (b ++ T2).

(** The number of indexes at which [s] occurs in [T]. *)
Fixpoint occurrences (s T : text) : nat :=
  (if startswith T s then 1 else 0) +
  match T with
  | [] => 0
  | _ :: T' => occurrences s T'
  end.

(** * Part II: properties *)

(** ** [startswith] and [find] *)

Lemma startswith_app (T s : text) :
  startswith T s = true ↔ ∃ v, T = s ++ v.
Proof.
  revert T. induction s as [|a s IH]; intros T; simpl.
  - split; [intros _; by exists T | done].
  - destruct T as [|c T]; [split; [done | by intros [v ?]]|].
    destruct (N.eqb_spec a c) as [->|Hne].
    + rewrite IH. split; intros [v Hv]; exists v; [by rewrite Hv | congruence].
    + split; [done | intros [v ?]; congruence].
Qed.

Lemma startswith_self (s v : text) : startswith (s ++ v) s = true.
Proof. apply startswith_app. by exists v. Qed.

Lemma startswith_self_cons (a : N) (s v : text) :
  startswith (a :: s ++ v) (a :: s) = true.
Proof. apply (startswith_self (a :: s)). Qed.

Lemma startswith_false_head (T s : text) (m c : N) :
  c ≠ m → startswith (c :: T) (m :: s) = false.
Proof. intros Hne. simpl. destruct (N.eqb_spec m c); congruence. Qed.

Lemma startswith_drop (T s : text) :
  startswith T s = true → T = s ++ drop (length s) T.
Proof.
  intros [v ->]%startswith_app. by rewrite drop_app_length.
Qed.

Lemma occurs_at_0 (s T : text) :
  occurs_at s 0 T ↔ startswith T s = true.
Proof.
  rewrite startswith_app. split.
  - intros (u & v & -> & Hu). apply nil_length_inv in Hu as ->. by exists v.
  - intros [v ->]. by exists [], v.
Qed.

Lemma occurs_at_S (s : text) (i : nat) (c : N) (T : text) :
  occurs_at s (S i) (c :: T) ↔ occurs_at s i T.
Proof.
  split.
  - intros (u & v & HT & Hu). destruct u as [|x u]; [done|].
    simpl in *. exists u, v. split; congruence.
  - intros (u & v & -> & Hu). exists (c :: u), v. simpl. by rewrite Hu.
Qed.

Lemma occurs_at_S_nil (s : text) (i : nat) : ¬ occurs_at s (S i) [].
Proof. intros (u & v & HT & Hu). by destruct u. Qed.

Lemma occurs_cons (s : text) (c : N) (T : text) :
  occurs s (c :: T) ↔ startswith (c :: T) s = true ∨ occurs s T.
Proof.
  split.
  - intros [[|i] H]; [left; by apply occurs_at_0|].
    right. exists i. by apply occurs_at_S in H.
  - intros [H|[i H]]; [exists 0; by apply occurs_at_0|].
    exists (S i). by apply occurs_at_S.
Qed.

Lemma occurs_nil (s : text) : occurs s [] ↔ s = [].
Proof.
  split.
  - intros (i & u & v & H & _). symmetry in H.
    apply app_eq_nil in H as [_ H]. by apply app_eq_nil in H as [? _].
  - intros ->. exists 0, [], []. done.
Qed.

Lemma occurs_app_r (s u T : text) : occurs s T → occurs s (u ++ T).
Proof.
  intros (i & x & y & -> & _). exists (length (u ++ x)), (u ++ x), y.
  by rewrite <-app_assoc.
Qed.

Lemma occurs_drop (s : text) (n : nat) (T : text) :
  occurs s (drop n T) → occurs s T.
Proof.
  intros H. rewrite <-(take_drop n T). by apply occurs_app_r.
Qed.

(** [find] returns the leftmost occurrence, and [None] only when there is
    none. *)
Lemma find_Some (T s : text) (j : nat) :
  find T s = Some j ↔
  occurs_at s j T ∧ ∀ i, i < j → ¬ occurs_at s i T.
Proof.
  revert j. induction T as [|c T IH]; intros j.
  - simpl. destruct (startswith [] s) eqn:Hs.
    + split.
      * intros [= <-]. split; [by apply occurs_at_0 | lia].
      * intros [H _]. destruct j; [done | by apply occurs_at_S_nil in H].
    + split; [done|]. intros [H _]. destruct j.
      * apply occurs_at_0 in H. congruence.
      * by apply occurs_at_S_nil in H.
  - cbn [find]. destruct (startswith (c :: T) s) eqn:Hs.
    + split.
      * intros [= <-]. split; [by apply occurs_at_0 | lia].
      * intros [_ H]. destruct j; [done|]. destruct (H 0); [lia|].
        by apply occurs_at_0.
    + destruct j.
      * split; [by destruct (find T s)|].
        intros [H _]. apply occurs_at_0 in H. congruence.
      * rewrite fmap_Some. split.
        -- intros (k & Hk & [= ->]). apply IH in Hk as [Hk1 Hk2]. split.
           ++ by apply occurs_at_S.
           ++ intros [|i] Hi; [rewrite occurs_at_0; congruence|].
              rewrite occurs_at_S. apply Hk2. lia.
        -- intros [H1 H2]. exists j. split; [|done]. apply IH. split.
           ++ by apply occurs_at_S in H1.
           ++ intros i Hi Hocc. apply (H2 (S i)); [lia|]. by apply occurs_at_S.
Qed.

Lemma find_None (T s : text) : find T s = None ↔ ¬ occurs s T.
Proof.
  induction T as [|c T IH].
  - simpl. rewrite occurs_nil. destruct s; simpl; split; done.
  - cbn [find]. rewrite occurs_cons. destruct (startswith (c :: T) s).
    + split; [done | intros []; by left].
    + rewrite fmap_None, IH. split; [intros H [?|?]; done | tauto].
Qed.

Lemma contains_occurs (T s : text) : contains T s = true ↔ occurs s T.
Proof.
  unfold contains. destruct (find T s) eqn:Hf.
  - split; [|done]. intros _. apply find_Some in Hf as [H _]. by eexists.
  - apply find_None in Hf. split; [done | tauto].
Qed.

Lemma occurs_or_not (s T : text) : occurs s T ∨ ¬ occurs s T.
Proof.
  destruct (contains T s) eqn:H.
  - left. by apply contains_occurs.
  - right. rewrite <-contains_occurs. congruence.
Qed.

Lemma find_split (T s : text) (j : nat) :
  find T s = Some j →
  T = take j T ++ s ++ drop (j + length s) T ∧ length (take j T) = j.
Proof.
  intros [(u & v & -> & Hu) _]%find_Some. subst j.
  rewrite take_app_length. split; [|done].
  rewrite <-drop_drop, drop_app_length. by rewrite drop_app_length.
Qed.

(** [occurrences] counts what [occurs_at] describes. *)
Lemma occurrences_pos (s T : text) :
  0 < occurrences s T ↔ occurs s T.
Proof.
  induction T as [|c T IH].
  - simpl. rewrite occurs_nil. destruct s; simpl; split; (done || lia).
  - cbn [occurrences]. rewrite occurs_cons, <-IH.
    destruct (startswith (c :: T) s); split; try lia; try tauto.
Qed.

(** ** [replace]: the loop always has rounds to spare *)

Lemma find_bound (T s : text) (j : nat) :
  find T s = Some j → j + length s ≤ length T.
Proof.
  intros [(u & v & -> & <-) _]%find_Some. rewrite !length_app. lia.
Qed.

Lemma replace_loop_rounds (n m : nat) (T s r : text) :
  s ≠ [] → length T ≤ n → length T ≤ m →
  replace_loop n T s r = replace_loop m T s r.
Proof.
  intros Hs. revert m T. induction n as [|n IH]; intros m T Hn Hm.
  - destruct T; [|simpl in Hn; lia].
    destruct m; [done|]. simpl. by destruct s.
  - destruct m as [|m].
    + destruct T; [|simpl in Hm; lia]. simpl. by destruct s.
    + simpl. destruct (find T s) as [j|] eqn:Hj; [|done].
      apply find_bound in Hj. destruct s as [|a s]; [done|]. simpl in Hj.
      do 2 f_equal. apply IH; rewrite length_drop; simpl; lia.
Qed.

(** One round of [replace]. *)
Lemma replace_unfold (T s r : text) :
  s ≠ [] →
  replace T s r =
    match find T s with
    | None => T
    | Some j => take j T ++ r ++ replace (drop (j + length s) T) s r
    end.
Proof.
  intros Hs. unfold replace. destruct s as [|a s]; [done|].
  destruct T as [|c T]; [done|].
  cbn [length replace_loop]. destruct (find (c :: T) (a :: s)) as [j|] eqn:Hj; [|done].
  apply find_bound in Hj. simpl in Hj. do 2 f_equal.
  apply replace_loop_rounds; [done| |done]. rewrite length_drop. simpl. lia.
Qed.

Lemma replace_nil (s r : text) : s ≠ [] → replace [] s r = [].
Proof. by destruct s. Qed.

(** The same thing read character by character. *)
Lemma replace_cons (c : N) (T s r : text) :
  s ≠ [] →
  replace (c :: T) s r =
    if startswith (c :: T) s
    then r ++ replace (drop (length s) (c :: T)) s r
    else c :: replace T s r.
Proof.
  intros Hs. rewrite (replace_unfold (c :: T)) by done.
  cbn [find]. destruct (startswith (c :: T) s); [done|].
  rewrite (replace_unfold T) by done.
  destruct (find T s) as [j|]; [|done]. done.
Qed.

Lemma replace_hit (s v r : text) :
  s ≠ [] → replace (s ++ v) s r = r ++ replace v s r.
Proof.
  intros Hs. destruct s as [|a s]; [done|].
  change ((a :: s) ++ v) with (a :: (s ++ v)).
  rewrite replace_cons by done.
  change (a :: (s ++ v)) with ((a :: s) ++ v).
  by rewrite startswith_self, drop_app_length.
Qed.

(** Where [s] does not occur, [replace] returns its input. *)
Lemma replace_absent (T s r : text) : ¬ occurs s T → replace T s r = T.
Proof.
  intros Hno. destruct s as [|a s].
  - destruct Hno. exists 0, [], T. done.
  - rewrite replace_unfold by done. apply find_None in Hno. by rewrite Hno.
Qed.

(** ** [replace] against the specification's reading *)

Lemma Replaced_replace (T s r : text) :
  s ≠ [] → Replaced s r T (replace T s r).
Proof.
  intros Hs. remember (length T) as n eqn:Hn. revert T Hn.
  induction (lt_wf n) as [n _ IH]; intros T ->.
  rewrite replace_unfold by done. destruct (find T s) as [j|] eqn:Hj.
  - pose proof (find_bound _ _ _ Hj) as Hb.
    pose proof (find_split _ _ _ Hj) as [HT Hlen].
    apply find_Some in Hj as [_ Hleft].
    rewrite HT at 1. constructor.
    + rewrite Hlen, <-HT. done.
    + apply (IH (length (drop (j + length s) T))); [|done].
      rewrite length_drop. destruct s; [done|]. simpl in *. lia.
  - constructor. by apply find_None.
Qed.

Lemma Replaced_functional (s r T O O' : text) :
  Replaced s r T O → Replaced s r T O' → O = O'.
Proof.
  intros H. revert O'. induction H as [T Hno|u v v' Hleft Hv IH]; intros O' H'.
  - inversion H' as [|u v v' _ _ HT]; [done|]. subst.
    destruct Hno. exists (length u), u, v. done.
  - inversion H' as [T' Hno|u2 v2 v2' Hleft2 Hv2 HT]; subst.
    + destruct Hno. exists (length u), u, v. done.
    + assert (length u = length u2) as Hlen.
      { destruct (Nat.lt_trichotomy (length u) (length u2)) as [Hlt|[?|Hlt]]; [|done|].
        - destruct (Hleft2 _ Hlt). rewrite HT. by exists u, v.
        - destruct (Hleft _ Hlt). rewrite <-HT. by exists u2, v2. }
      apply app_inj_1 in HT as [-> HT]; [|done].
      apply app_inv_head in HT as ->. by rewrite (IH _ Hv2).
Qed.

(** ** Respelling *)

Lemma respelled_inv (a b T1 T2 : text) :
  respelled a b T1 T2 →
  (T1 = [] ∧ T2 = []) ∨
  (∃ c A B, T1 = c :: A ∧ T2 = c :: B ∧ respelled a b A B) ∨
  (∃ A B, T1 = a ++ A ∧ T2 = b ++ B ∧ respelled a b A B).
Proof. destruct 1; naive_solver. Qed.

Lemma respelled_refl (a b T : text) : respelled a b T T.
Proof. induction T; by constructor. Qed.

(** ** Rules whose search strings start with a marker

    Both search strings of the script start with the letter [m], which
    occurs nowhere else in them and nowhere in the replacement; the
    replacement starts with an opening parenthesis, which occurs in neither
    search string.  The lemmas of this section need nothing else. *)

Section Marker.

Variables (m p : N) (r tr : text).
Hypothesis r_head : r = p :: tr.
Hypothesis m_not_in_r : m ∉ r.

(** No occurrence starts inside a stretch without the marker: [replace]
    copies the stretch. *)
Lemma replace_skip (ts u X : text) :
  m ∉ u → replace (u ++ X) (m :: ts) r = u ++ replace X (m :: ts) r.
Proof.
  induction u as [|c u IH]; intros Hu; [done|].
  apply not_elem_of_cons in Hu as [Hc Hu]. simpl.
  rewrite replace_cons by done.
  rewrite startswith_false_head by done. by rewrite IH.
Qed.

Lemma occurs_skip (ts u X : text) :
  m ∉ u → occurs (m :: ts) (u ++ X) → occurs (m :: ts) X.
Proof.
  induction u as [|c u IH]; intros Hu; [done|].
  apply not_elem_of_cons in Hu as [Hc Hu]. simpl.
  rewrite occurs_cons, startswith_false_head by done.
  intros [?|?]; [done | by apply IH].
Qed.

Lemma occurrences_skip (ts u X : text) :
  m ∉ u → occurrences (m :: ts) (u ++ X) = occurrences (m :: ts) X.
Proof.
  induction u as [|c u IH]; intros Hu; [done|].
  apply not_elem_of_cons in Hu as [Hc Hu]. cbn [app occurrences].
  rewrite startswith_false_head by done. by rewrite IH.
Qed.

(** What [replace] puts out before its first replacement is what it read. *)
Lemma prefix_replace_inv (u T s : text) :
  s ≠ [] → p ∉ u → u `prefix_of` replace T s r → u `prefix_of` T.
Proof.
  intros Hs. revert T. induction u as [|x u IH]; intros T Hu Hpre.
  - apply prefix_nil.
  - apply not_elem_of_cons in Hu as [Hx Hu].
    destruct T as [|c T].
    + rewrite replace_nil in Hpre by done. by apply prefix_nil_not in Hpre.
    + rewrite replace_cons in Hpre by done.
      destruct (startswith (c :: T) s).
      * rewrite r_head in Hpre. simpl in Hpre.
        apply prefix_cons_inv_1 in Hpre. congruence.
      * pose proof (prefix_cons_inv_1 _ _ _ _ Hpre) as ->.
        apply prefix_cons, IH; [done|]. by apply prefix_cons_inv_2 in Hpre.
Qed.

Lemma startswith_replace_inv (c : N) (T ta s : text) :
  s ≠ [] → p ∉ ta →
  startswith (c :: replace T s r) (m :: ta) = true →
  startswith (c :: T) (m :: ta) = true.
Proof.
  intros Hs Hp. rewrite !startswith_app.
  intros [v Hv]. injection Hv as -> Hv.
  destruct (prefix_replace_inv ta T s) as [v' ->]; [done..| |].
  - by exists v.
  - by exists v'.
Qed.

(** A rule application creates no occurrence of a search string that
    starts with the marker and is free of the parenthesis. *)
Lemma replace_creates_none (ta b X : text) :
  b ≠ [] → p ∉ ta →
  ¬ occurs (m :: ta) X → ¬ occurs (m :: ta) (replace X b r).
Proof.
  intros Hb Hp. remember (length X) as n eqn:Hn. revert X Hn.
  induction (lt_wf n) as [n _ IH]; intros X -> Hno.
  destruct X as [|c X]; [by rewrite replace_nil|].
  rewrite replace_cons by done.
  destruct (startswith (c :: X) b) eqn:Hsw.
  - intros Hocc%occurs_skip; [|done]. revert Hocc.
    apply (IH (length (drop (length b) (c :: X)))); [|done|].
    + rewrite length_drop. destruct b; [done|]. simpl. lia.
    + intros Hocc. apply Hno. by apply occurs_drop in Hocc.
  - rewrite occurs_cons. intros [Hsw'|Hocc].
    + apply Hno, occurs_cons. left.
      by apply startswith_replace_inv in Hsw'.
    + revert Hocc. apply (IH (length X)); [simpl; lia|done|].
      intros Hocc. apply Hno, occurs_cons. by right.
Qed.

(** A rule application leaves no occurrence of its own search string. *)
Lemma replace_leaves_none (ts T : text) :
  p ∉ ts → ¬ occurs (m :: ts) (replace T (m :: ts) r).
Proof.
  intros Hp. remember (length T) as n eqn:Hn. revert T Hn.
  induction (lt_wf n) as [n _ IH]; intros T ->.
  destruct T as [|c T]; [rewrite replace_nil by done; by rewrite occurs_nil|].
  rewrite replace_cons by done.
  destruct (startswith (c :: T) (m :: ts)) eqn:Hsw.
  - intros Hocc%occurs_skip; [|done]. revert Hocc.
    apply (IH (length (drop (length (m :: ts)) (c :: T)))); [|done].
    rewrite length_drop. simpl. lia.
  - rewrite occurs_cons. intros [Hsw'|Hocc].
    + apply startswith_replace_inv in Hsw'; [congruence|done..].
    + revert Hocc. apply (IH (length T)); [simpl; lia|done].
Qed.

(** *** Two rules with a common marker and a common replacement *)

Section Pair.

Variables ta tb : text.
Hypothesis m_not_in_ta : m ∉ ta.
Hypothesis m_not_in_tb : m ∉ tb.
Hypothesis p_not_in_ta : p ∉ ta.
Hypothesis p_not_in_tb : p ∉ tb.

(** First the rule for [m :: ta], then the rule for [m :: tb]. *)
Local Abbreviation both := (two_rules (m :: ta) (m :: tb) r).

Lemma both_nil : both [] = [].
Proof. done. Qed.

Lemma both_first (T : text) :
  startswith T (m :: ta) = true →
  both T = r ++ both (drop (length (m :: ta)) T).
Proof.
  intros Hsw. unfold two_rules. rewrite (startswith_drop _ _ Hsw) at 1.
  rewrite replace_hit by done. by rewrite (replace_skip tb r).
Qed.

Lemma both_second (T : text) :
  startswith T (m :: ta) = false →
  startswith T (m :: tb) = true →
  both T = r ++ both (drop (length (m :: tb)) T).
Proof.
  intros Hna Hsw. unfold two_rules.
  rewrite (startswith_drop _ _ Hsw) in Hna |- * at 1.
  set (X := drop (length (m :: tb)) T) in *. simpl in Hna |- *.
  rewrite replace_cons by done. simpl. rewrite Hna.
  rewrite replace_skip by done.
  by apply (replace_hit (m :: tb)).
Qed.

Lemma both_neither (c : N) (T : text) :
  startswith (c :: T) (m :: ta) = false →
  startswith (c :: T) (m :: tb) = false →
  both (c :: T) = c :: both T.
Proof.
  intros Hna Hnb. unfold two_rules.
  rewrite (replace_cons c T (m :: ta)) by done. rewrite Hna.
  rewrite replace_cons by done.
  destruct (startswith (c :: replace T (m :: ta) r) (m :: tb)) eqn:Hsw; [|done].
  apply startswith_replace_inv in Hsw; [congruence|done..].
Qed.

(** Search strings of one length that differ cannot both start a text. *)
Hypothesis same_length : length ta = length tb.
Hypothesis different : ta ≠ tb.

Lemma exclusive (T : text) :
  startswith T (m :: ta) = true → startswith T (m :: tb) = false.
Proof.
  intros [v ->]%startswith_app. apply not_true_is_false.
  intros [v' Hv']%startswith_app. injection Hv' as Hv'.
  by apply app_inj_1 in Hv' as [? _].
Qed.

(** Two occurrences, one of each search string, never share a character. *)
Lemma no_overlap (T : text) (i j : nat) :
  occurs_at (m :: ta) i T → occurs_at (m :: tb) j T →
  i + length (m :: ta) ≤ j ∨ j + length (m :: tb) ≤ i.
Proof.
  assert (∀ t t' i j, m ∉ t →
    occurs_at (m :: t) i T → occurs_at (m :: t') j T → i < j →
    i + length (m :: t) ≤ j) as Hlt.
  { clear. intros t t' i j Hm (u & v & HT & <-) (u' & v' & HT' & <-) Hij.
    destruct (decide (length u + length (m :: t) ≤ length u')) as [|Hn]; [done|].
    simpl in Hn. destruct Hm.
    assert (T !! length u' = Some m) as Hj.
    { rewrite HT', lookup_app_r, Nat.sub_diag by done. done. }
    rewrite HT, lookup_app_r in Hj by lia.
    destruct (length u' - length u) as [|k] eqn:Hk; [lia|]. simpl in Hj.
    rewrite lookup_app_l in Hj by lia. by apply list_elem_of_lookup_2 in Hj. }
  intros Ha Hb. destruct (Nat.lt_trichotomy i j) as [Hij|[->|Hij]].
  - left. by apply (Hlt ta tb).
  - destruct Ha as (u & v & HT & Hu), Hb as (u' & v' & HT' & Hu').
    rewrite HT in HT'. apply app_inj_1 in HT' as [_ HT']; [|congruence].
    assert (startswith (m :: ta ++ v) (m :: tb) = true) as Hsw.
    { apply startswith_app. by exists v'. }
    rewrite (exclusive (m :: ta ++ v)) in Hsw; [done|].
    apply (startswith_self (m :: ta)).
  - right. by apply (Hlt tb ta).
Qed.

(** Applying the rule for [m :: ta] neither creates nor destroys an
    occurrence of [m :: tb]. *)
Lemma startswith_replace_other (c : N) (T : text) :
  startswith (c :: replace T (m :: ta) r) (m :: tb)
  = startswith (c :: T) (m :: tb).
Proof.
  destruct (startswith (c :: T) (m :: tb)) eqn:Hb.
  - apply startswith_app in Hb as [v Hv]. injection Hv as -> ->.
    rewrite replace_skip by done. apply startswith_self_cons.
  - apply not_true_is_false. intros Hsw.
    apply startswith_replace_inv in Hsw; [congruence|done..].
Qed.

Lemma occurrences_replace_other (T : text) :
  occurrences (m :: tb) (replace T (m :: ta) r) = occurrences (m :: tb) T.
Proof.
  remember (length T) as n eqn:Hn. revert T Hn.
  induction (lt_wf n) as [n _ IH]; intros T ->.
  destruct T as [|c T]; [done|].
  rewrite replace_cons by done.
  destruct (startswith (c :: T) (m :: ta)) eqn:Ha.
  - pose proof (exclusive _ Ha) as Hb.
    pose proof Ha as [v Hv]%startswith_app. injection Hv as -> ->.
    change (m :: ta ++ v) with ((m :: ta) ++ v) at 1. rewrite drop_app_length.
    rewrite (occurrences_skip tb r) by done.
    rewrite (IH (length v)) by (simpl; rewrite ?length_app; lia || done).
    cbn [occurrences]. rewrite Hb. by rewrite occurrences_skip.
  - cbn [occurrences]. rewrite startswith_replace_other.
    by rewrite (IH (length T)) by (simpl; lia || done).
Qed.

(** Respelling goes through a stretch without the marker unchanged. *)
Lemma respelled_skip_l (u X Y : text) :
  m ∉ u → respelled (m :: ta) (m :: tb) (u ++ X) Y →
  ∃ X', Y = u ++ X' ∧ respelled (m :: ta) (m :: tb) X X'.
Proof.
  revert Y. induction u as [|c u IH]; intros Y Hu H; [by exists Y|].
  apply not_elem_of_cons in Hu as [Hc Hu].
  apply respelled_inv in H
    as [[? _]|[(c' & A & B & [= <- <-] & -> & HAB)|(A & B & [= ? _] & _)]];
    [done| |congruence].
  destruct (IH B Hu HAB) as (X' & -> & HX). by exists X'.
Qed.

Lemma respelled_skip_r (u X Y : text) :
  m ∉ u → respelled (m :: ta) (m :: tb) Y (u ++ X) →
  ∃ X', Y = u ++ X' ∧ respelled (m :: ta) (m :: tb) X' X.
Proof.
  revert Y. induction u as [|c u IH]; intros Y Hu H; [by exists Y|].
  apply not_elem_of_cons in Hu as [Hc Hu].
  apply respelled_inv in H
    as [[_ ?]|[(c' & A & B & -> & [= <- <-] & HAB)|(A & B & _ & [= ? _] & _)]];
    [done| |congruence].
  destruct (IH A Hu HAB) as (X' & -> & HX). by exists X'.
Qed.

(** The two rules cannot tell the spellings apart. *)
Lemma both_respelled (T1 T2 : text) :
  respelled (m :: ta) (m :: tb) T1 T2 → both T1 = both T2.
Proof.
  remember (length T1) as n eqn:Hn. revert T1 T2 Hn.
  induction (lt_wf n) as [n _ IH]; intros T1 T2 -> H.
  apply respelled_inv in H
    as [[-> ->]|[(c & A & B & -> & -> & HAB)|(A & B & -> & -> & HAB)]]; [done| |].
  - destruct (startswith (c :: A) (m :: ta)) eqn:Ha.
    { pose proof Ha as [X HX]%startswith_app. injection HX as -> ->.
      apply respelled_skip_l in HAB as (X' & -> & HX); [|done].
      rewrite (both_first (m :: ta ++ X)), (both_first (m :: ta ++ X'));
        [|apply (startswith_self (m :: ta))..].
      f_equal. change (m :: ta ++ ?v) with ((m :: ta) ++ v).
      rewrite !drop_app_length.
      apply (IH (length X)); [simpl; rewrite ?length_app; simpl; lia|done..]. }
    destruct (startswith (c :: A) (m :: tb)) eqn:Hb.
    { pose proof Hb as [X HX]%startswith_app. injection HX as -> ->.
      apply respelled_skip_l in HAB as (X' & -> & HX); [|done].
      assert (startswith (m :: tb ++ X') (m :: ta) = false) as Ha'.
      { apply not_true_is_false. intros Hsw%exclusive.
        by rewrite startswith_self_cons in Hsw. }
      rewrite (both_second (m :: tb ++ X)), (both_second (m :: tb ++ X'));
        [|done|apply (startswith_self (m :: tb))|done
         |apply (startswith_self (m :: tb))].
      f_equal. change (m :: tb ++ ?v) with ((m :: tb) ++ v).
      rewrite !drop_app_length.
      apply (IH (length X)); [simpl; rewrite ?length_app; simpl; lia|done..]. }
    assert (startswith (c :: B) (m :: ta) = false) as Ha'.
    { apply not_true_is_false. intros [X HX]%startswith_app.
      injection HX as -> ->.
      apply respelled_skip_r in HAB as (X' & -> & _); [|done].
      by rewrite startswith_self_cons in Ha. }
    assert (startswith (c :: B) (m :: tb) = false) as Hb'.
    { apply not_true_is_false. intros [X HX]%startswith_app.
      injection HX as -> ->.
      apply respelled_skip_r in HAB as (X' & -> & _); [|done].
      by rewrite startswith_self_cons in Hb. }
    rewrite !both_neither by done. f_equal.
    by apply (IH (length A)); [simpl; lia|..].
  - rewrite (both_first ((m :: ta) ++ A)) by apply startswith_self.
    rewrite (both_second ((m :: tb) ++ B));
      [|rewrite <-not_true_iff_false; intros Hsw; apply exclusive in Hsw;
        by rewrite startswith_self in Hsw
       |apply startswith_self].
    rewrite !drop_app_length. f_equal.
    apply (IH (length A)); [simpl; rewrite ?length_app; simpl; lia|done..].
Qed.

End Pair.

(** The order of the two rules does not matter. *)
Lemma two_rules_comm (ta tb : text) :
  m ∉ ta → m ∉ tb → p ∉ ta → p ∉ tb → length ta = length tb → ta ≠ tb →
  ∀ T, two_rules (m :: ta) (m :: tb) r T = two_rules (m :: tb) (m :: ta) r T.
Proof.
  intros Hma Hmb Hpa Hpb Hlen Hne T.
  remember (length T) as n eqn:Hn. revert T Hn.
  induction (lt_wf n) as [n _ IH]; intros T ->.
  destruct T as [|c T]; [done|].
  destruct (startswith (c :: T) (m :: ta)) eqn:Ha.
  - pose proof (exclusive ta tb Hlen Hne _ Ha) as Hb.
    rewrite (both_first ta tb), (both_second tb ta) by done. f_equal.
    apply (IH (length (drop (length (m :: ta)) (c :: T)))); [|done].
    rewrite length_drop. simpl. lia.
  - destruct (startswith (c :: T) (m :: tb)) eqn:Hb.
    + rewrite (both_second ta tb), (both_first tb ta) by done. f_equal.
      apply (IH (length (drop (length (m :: tb)) (c :: T)))); [|done].
      rewrite length_drop. simpl. lia.
    + rewrite (both_neither ta tb), (both_neither tb ta) by done. f_equal.
      apply (IH (length T)); [simpl; lia|done].
Qed.

End Marker.

(** ** How the transformation treats the text around the occurrences *)

Lemma startswith_app_l (T Y s : text) :
  startswith T s = true → startswith (T ++ Y) s = true.
Proof.
  rewrite !startswith_app. intros [v ->]. exists (v ++ Y).
  by rewrite <-app_assoc.
Qed.

Section MarkerLaws.

Variables (m p : N) (r tr ta tb : text).
Hypothesis r_head : r = p :: tr.
Hypothesis m_not_in_r : m ∉ r.
Hypothesis m_not_in_ta : m ∉ ta.
Hypothesis m_not_in_tb : m ∉ tb.
Hypothesis p_not_in_tb : p ∉ tb.
Hypothesis same_length : length ta = length tb.
Hypothesis different : ta ≠ tb.

Local Abbreviation rules := (two_rules (m :: ta) (m :: tb) r).

(** A search string that starts before a marker ends before it. *)
Lemma prefix_before_marker (t u X : text) :
  m ∉ t → t `prefix_of` u ++ m :: X → t `prefix_of` u.
Proof.
  revert u. induction t as [|x t IH]; intros u Hm Hpre; [apply prefix_nil|].
  apply not_elem_of_cons in Hm as [Hx Hm]. destruct u as [|y u].
  - simpl in Hpre. apply prefix_cons_inv_1 in Hpre. congruence.
  - simpl in Hpre. pose proof (prefix_cons_inv_1 _ _ _ _ Hpre) as ->.
    apply prefix_cons, IH; [done|]. by apply prefix_cons_inv_2 in Hpre.
Qed.

Lemma startswith_before_marker (t u X : text) :
  m ∉ t → u ≠ [] →
  startswith (u ++ m :: X) (m :: t) = startswith u (m :: t).
Proof.
  intros Hm Hu. destruct u as [|c u]; [done|].
  destruct (startswith (c :: u) (m :: t)) eqn:Hs.
  - by apply (startswith_app_l (c :: u)).
  - apply not_true_is_false. intros [v Hv]%startswith_app.
    simpl in Hv. injection Hv as -> Hv.
    destruct (prefix_before_marker t u X Hm) as [v' ->]; [by exists v|].
    by rewrite startswith_self_cons in Hs.
Qed.

(** The transformation of a text is the transformation of what comes before
    a marker followed by the transformation of the rest. *)
Lemma rules_split (u X : text) :
  rules (u ++ m :: X) = rules u ++ rules (m :: X).
Proof.
  clear same_length different.
  remember (length u) as n eqn:Hn. revert u Hn.
  induction (lt_wf n) as [n _ IH]; intros u ->.
  destruct u as [|c u]; [done|].
  pose proof (startswith_before_marker ta (c :: u) X m_not_in_ta
                ltac:(done)) as Ea.
  pose proof (startswith_before_marker tb (c :: u) X m_not_in_tb
                ltac:(done)) as Eb.
  destruct (startswith (c :: u) (m :: ta)) eqn:Ha.
  - rewrite (both_first m r m_not_in_r ta tb _ Ea).
    rewrite (both_first m r m_not_in_r ta tb _ Ha).
    apply startswith_app in Ha as [v Hv]. rewrite Hv.
    rewrite <-(app_assoc (m :: ta)), !drop_app_length, <-app_assoc. f_equal.
    apply (IH (length v)); [|done].
    rewrite Hv. simpl. rewrite length_app. lia.
  - destruct (startswith (c :: u) (m :: tb)) eqn:Hb.
    + rewrite (both_second m r ta tb m_not_in_tb _ Ea Eb).
      rewrite (both_second m r ta tb m_not_in_tb _ Ha Hb).
      apply startswith_app in Hb as [v Hv]. rewrite Hv.
      rewrite <-(app_assoc (m :: tb)), !drop_app_length, <-app_assoc. f_equal.
      apply (IH (length v)); [|done].
      rewrite Hv. simpl. rewrite length_app. lia.
    + cbn [app] in Ea, Eb |- *.
      rewrite (both_neither m p r tr r_head ta tb p_not_in_tb _ _ Ea Eb).
      rewrite (both_neither m p r tr r_head ta tb p_not_in_tb _ _ Ha Hb).
      cbn [app]. f_equal. apply (IH (length u)); [simpl; lia|done].
Qed.

(** Every occurrence of either search string is replaced once, and nothing
    else changes the length. *)
Lemma rules_length (T : text) :
  length (rules T)
  + length (m :: ta) * (occurrences (m :: ta) T + occurrences (m :: tb) T)
  = length T
    + length r * (occurrences (m :: ta) T + occurrences (m :: tb) T).
Proof.
  remember (length T) as n eqn:Hn. revert T Hn.
  induction (lt_wf n) as [n _ IH]; intros T ->.
  destruct T as [|c T]; [simpl; lia|].
  destruct (startswith (c :: T) (m :: ta)) eqn:Ha.
  - pose proof (exclusive m ta tb same_length different _ Ha) as Hb.
    rewrite (both_first m r m_not_in_r ta tb _ Ha).
    cbn [occurrences]. rewrite Ha, Hb.
    apply startswith_app in Ha as [v Hv]. injection Hv as -> ->.
    change (m :: ta ++ v) with ((m :: ta) ++ v) at 1.
    rewrite drop_app_length, !occurrences_skip by done.
    specialize (IH (length v) ltac:(simpl; rewrite length_app; lia) v eq_refl).
    rewrite !length_app. cbn [length] in IH |- *. rewrite length_app. nia.
  - destruct (startswith (c :: T) (m :: tb)) eqn:Hb.
    + rewrite (both_second m r ta tb m_not_in_tb _ Ha Hb).
      cbn [occurrences]. rewrite Ha, Hb.
      apply startswith_app in Hb as [v Hv]. injection Hv as -> ->.
      change (m :: tb ++ v) with ((m :: tb) ++ v) at 1.
      rewrite drop_app_length, !occurrences_skip by done.
      specialize (IH (length v) ltac:(simpl; rewrite length_app; lia) v eq_refl).
      rewrite !length_app. cbn [length] in IH |- *. rewrite length_app. nia.
    + rewrite (both_neither m p r tr r_head ta tb p_not_in_tb _ _ Ha Hb).
      cbn [occurrences]. rewrite Ha, Hb.
      specialize (IH (length T) ltac:(simpl; lia) T eq_refl).
      change (length (m :: ta)) with (S (length ta)) in IH |- *.
      cbn [length]. nia.
Qed.

End MarkerLaws.

(** ** The script's two rules *)

Lemma search_F_eq : search_F = marker :: tail_F.
Proof. reflexivity. Qed.

Lemma search_f_eq : search_f = marker :: tail_f.
Proof. reflexivity. Qed.

Lemma replacement_eq : replacement = paren :: tail_r.
Proof. reflexivity. Qed.

Lemma marker_not_in_replacement : marker ∉ replacement.
Proof. apply (bool_decide_unpack _). by vm_compute. Qed.

Lemma marker_not_in_tail_F : marker ∉ tail_F.
Proof. apply (bool_decide_unpack _). by vm_compute. Qed.

Lemma marker_not_in_tail_f : marker ∉ tail_f.
Proof. apply (bool_decide_unpack _). by vm_compute. Qed.

Lemma paren_not_in_tail_F : paren ∉ tail_F.
Proof. apply (bool_decide_unpack _). by vm_compute. Qed.

Lemma paren_not_in_tail_f : paren ∉ tail_f.
Proof. apply (bool_decide_unpack _). by vm_compute. Qed.

Lemma tails_differ : tail_F ≠ tail_f.
Proof. by vm_compute. Qed.

Lemma search_nonempty (s : text) : s ∈ [search_F; search_f] → s ≠ [].
Proof. intros [->|[->|[]%elem_of_nil]%elem_of_cons]%elem_of_cons; done. Qed.

Lemma transform_two_rules (T : text) :
  transform T = two_rules search_F search_f replacement T.
Proof. reflexivity. Qed.

Lemma leaves_none (s : text) (T : text) :
  s ∈ [search_F; search_f] → ¬ occurs s (replace T s replacement).
Proof.
  intros [->|[->|[]%elem_of_nil]%elem_of_cons]%elem_of_cons.
  - apply (replace_leaves_none marker paren replacement tail_r replacement_eq
             marker_not_in_replacement tail_F T paren_not_in_tail_F).
  - apply (replace_leaves_none marker paren replacement tail_r replacement_eq
             marker_not_in_replacement tail_f T paren_not_in_tail_f).
Qed.

Lemma creates_none (s s' : text) (X : text) :
  s ∈ [search_F; search_f] → s' ∈ [search_F; search_f] →
  ¬ occurs s X → ¬ occurs s (replace X s' replacement).
Proof.
  intros Hs Hs'%search_nonempty. revert Hs.
  intros [->|[->|[]%elem_of_nil]%elem_of_cons]%elem_of_cons.
  - apply (replace_creates_none marker paren replacement tail_r replacement_eq
             marker_not_in_replacement tail_F s' X Hs' paren_not_in_tail_F).
  - apply (replace_creates_none marker paren replacement tail_r replacement_eq
             marker_not_in_replacement tail_f s' X Hs' paren_not_in_tail_f).
Qed.

Lemma transform_clean (T : text) :
  ¬ occurs search_F (transform T) ∧ ¬ occurs search_f (transform T).
Proof.
  split.
  - apply creates_none; [set_solver..|]. apply leaves_none. set_solver.
  - apply leaves_none. set_solver.
Qed.

Lemma transform_absent (T : text) :
  ¬ occurs search_F T → ¬ occurs search_f T → transform T = T.
Proof.
  intros HF Hf. rewrite transform_two_rules. unfold two_rules.
  rewrite (replace_absent T) by done. by apply replace_absent.
Qed.

(** An occurrence of a search string, wherever it stands, becomes the
    replacement, between what the text before it and the text after it
    become. *)
Lemma transform_at_occurrence (s u v : text) :
  s ∈ [search_F; search_f] →
  transform (u ++ s ++ v) = transform u ++ replacement ++ transform v.
Proof.
  assert (∀ X, transform (u ++ marker :: X)
               = transform u ++ transform (marker :: X)) as Hsplit.
  { apply (rules_split marker paren replacement tail_r tail_F tail_f
             replacement_eq marker_not_in_replacement marker_not_in_tail_F
             marker_not_in_tail_f paren_not_in_tail_f). }
  intros [->|[->|[]%elem_of_nil]%elem_of_cons]%elem_of_cons.
  - change (search_F ++ v) with (marker :: (tail_F ++ v)). rewrite Hsplit.
    f_equal. rewrite transform_two_rules.
    rewrite (both_first marker replacement marker_not_in_replacement
               tail_F tail_f) by apply startswith_self_cons.
    change (marker :: tail_F ++ v) with ((marker :: tail_F) ++ v).
    by rewrite drop_app_length.
  - change (search_f ++ v) with (marker :: (tail_f ++ v)). rewrite Hsplit.
    f_equal. rewrite transform_two_rules.
    rewrite (both_second marker replacement tail_F tail_f
               marker_not_in_tail_f).
    + change (marker :: tail_f ++ v) with ((marker :: tail_f) ++ v).
      by rewrite drop_app_length.
    + apply not_true_is_false.
      intros H%(exclusive marker tail_F tail_f eq_refl tails_differ).
      by rewrite startswith_self_cons in H.
    + apply startswith_self_cons.
Qed.

(** Scenarios A and B of the specification. *)
Example scenario_A :
  transform (str "mockFilterUsersV2(args)")
  = str "(UserService.filterUsersV2 as jest.Mock)(args)".
Proof. reflexivity. Qed.

Example scenario_B :
  transform (str "mockfilterUsersV2")
  = str "(UserService.filterUsersV2 as jest.Mock)".
Proof. reflexivity. Qed.

(** ** The text-level claims *)

(** C1.  The script's transformation is the sequential composition of the
    two rules, each being leftmost, non-overlapping literal replacement:
    the first rule turns the text read into an intermediate text, the second
    rule turns that intermediate text into the script's result, and no other
    result fits this description. *)
Theorem transform_sequential (T : text) :
  Replaced search_F replacement T (replace T search_F replacement) ∧
  Replaced search_f replacement (replace T search_F replacement) (transform T) ∧
  ∀ M O,
    Replaced search_F replacement T M →
    Replaced search_f replacement M O →
    O = transform T.
Proof.
  split; [by apply Replaced_replace|]. split; [by apply Replaced_replace|].
  intros M O HM HO.
  rewrite (Replaced_functional _ _ _ _ _ HM
             (Replaced_replace T search_F replacement ltac:(done))) in HO.
  apply (Replaced_functional _ _ _ _ _ HO). by apply Replaced_replace.
Qed.

(** C2.  The text the script produces contains neither search string.
    Every occurrence of a search string in the text read is replaced: where
    it stood, the result has the replacement, between what the text before
    it and the text after it have become; and the result is longer than
    the text read by 23 characters for each index at which a search string
    occurred, so each occurrence is replaced once.  No application of
    either rule creates an occurrence of either search string in a text
    that had none. *)
Theorem transform_no_occurrence (T : text) :
  ¬ occurs search_F (transform T) ∧
  ¬ occurs search_f (transform T) ∧
  contains (transform T) search_F = false ∧
  contains (transform T) search_f = false ∧
  (∀ s i,
     s ∈ [search_F; search_f] → occurs_at s i T →
     ∃ u v, T = u ++ s ++ v ∧ length u = i ∧
            transform T = transform u ++ replacement ++ transform v) ∧
  length (transform T)
  = length T + 23 * (occurrences search_F T + occurrences search_f T) ∧
  ∀ s s' X,
    s ∈ [search_F; search_f] → s' ∈ [search_F; search_f] →
    ¬ occurs s X → ¬ occurs s (replace X s' replacement).
Proof.
  destruct (transform_clean T) as [HF Hf].
  split; [done|]. split; [done|].
  split; [apply not_true_is_false; by rewrite contains_occurs|].
  split; [apply not_true_is_false; by rewrite contains_occurs|].
  split; [|split].
  - intros s i Hs (u & v & -> & Hu). exists u, v.
    repeat (split; [done|]). by apply transform_at_occurrence.
  - pose proof (rules_length marker paren replacement tail_r tail_F tail_f
                  replacement_eq marker_not_in_replacement
                  marker_not_in_tail_F marker_not_in_tail_f
                  paren_not_in_tail_f eq_refl tails_differ T) as H.
    rewrite transform_two_rules.
    change (length (marker :: tail_F)) with 17 in H.
    change (length replacement) with 40 in H.
    change (marker :: tail_F) with search_F in H.
    change (marker :: tail_f) with search_f in H.
    lia.
  - intros s s' X. apply creates_none.
Qed.

(** C3.  Applying the two rules in the script's order or in the opposite
    order gives the same text; an occurrence of one search string and an
    occurrence of the other never overlap; and applying one rule neither
    creates nor destroys an occurrence of the other rule's search string:
    it leaves their number as it was. *)
Theorem rules_commute (T : text) :
  transform T = replace (replace T search_f replacement) search_F replacement ∧
  (∀ i j, occurs_at search_F i T → occurs_at search_f j T →
          i + length search_F ≤ j ∨ j + length search_f ≤ i) ∧
  occurrences search_f (replace T search_F replacement)
  = occurrences search_f T ∧
  occurrences search_F (replace T search_f replacement)
  = occurrences search_F T.
Proof.
  repeat split.
  - apply (two_rules_comm marker paren replacement tail_r replacement_eq
             marker_not_in_replacement tail_F tail_f);
      auto using marker_not_in_tail_F, marker_not_in_tail_f,
        paren_not_in_tail_F, paren_not_in_tail_f, tails_differ.
  - intros i j.
    apply (no_overlap marker tail_F tail_f marker_not_in_tail_F
             marker_not_in_tail_f eq_refl tails_differ).
  - apply (occurrences_replace_other marker paren replacement tail_r
             replacement_eq marker_not_in_replacement tail_F tail_f);
      auto using marker_not_in_tail_F, marker_not_in_tail_f,
        paren_not_in_tail_F, paren_not_in_tail_f, tails_differ.
  - apply (occurrences_replace_other marker paren replacement tail_r
             replacement_eq marker_not_in_replacement tail_f tail_F);
      auto using marker_not_in_tail_F, marker_not_in_tail_f,
        paren_not_in_tail_F, paren_not_in_tail_f, tails_differ.
Qed.

(** C4.  Applying the script's transformation to its own result changes
    nothing, and the replacement contains neither search string. *)
Theorem transform_idempotent (T : text) :
  transform (transform T) = transform T ∧
  ¬ occurs search_F replacement ∧
  ¬ occurs search_f replacement.
Proof.
  destruct (transform_clean T) as [HF Hf].
  split; [by apply transform_absent|].
  split; apply find_None; reflexivity.
Qed.

(** C10.  Two texts that differ only in that some occurrences of
    [mockFilterUsersV2] in the first are spelled [mockfilterUsersV2] in the
    second are transformed into the same text. *)
Theorem transform_respelled (T1 T2 : text) :
  respelled search_F search_f T1 T2 → transform T1 = transform T2.
Proof.
  apply (both_respelled marker paren replacement tail_r replacement_eq
           marker_not_in_replacement tail_F tail_f marker_not_in_tail_F
           marker_not_in_tail_f paren_not_in_tail_f eq_refl tails_differ).
Qed.

Lemma transform_respelled_witness :
  respelled search_F search_f
    (str "a mockFilterUsersV2(mockFilterUsersV2)")
    (str "a mockfilterUsersV2(mockFilterUsersV2)") ∧
  transform (str "a mockFilterUsersV2(mockFilterUsersV2)")
  = transform (str "a mockfilterUsersV2(mockFilterUsersV2)").
Proof.
  assert (respelled search_F search_f
            (str "a mockFilterUsersV2(mockFilterUsersV2)")
            (str "a mockfilterUsersV2(mockFilterUsersV2)")) as H.
  { apply (respelled_same _ _ 97%N), (respelled_same _ _ 32%N).
    apply (respelled_here search_F search_f
             (str "(mockFilterUsersV2)") (str "(mockFilterUsersV2)")).
    apply respelled_refl. }
  split; [exact H | exact (transform_respelled _ _ H)].
Defined.

(** ** UTF-8 *)

Local Open Scope N_scope.

Ltac nlia := zify; Z.to_euclidean_division_equations; lia.

Lemma between_spec (lo hi n : N) : between lo hi n = true ↔ lo ≤ n ∧ n ≤ hi.
Proof. unfold between. rewrite andb_true_iff, N.leb_le, N.leb_le. done. Qed.

Lemma cont_spec (n : N) : cont n = true ↔ 0x80 ≤ n ∧ n ≤ 0xBF.
Proof. apply between_spec. Qed.

Lemma second3_spec (n0 n1 : N) :
  second3 n0 n1 = true ↔
  0x80 ≤ n1 ∧ n1 ≤ 0xBF ∧ (n0 = 0xE0 → 0xA0 ≤ n1) ∧ (n0 = 0xED → n1 ≤ 0x9F).
Proof.
  unfold second3.
  destruct (N.eqb_spec n0 0xE0) as [->|?]; [rewrite between_spec; lia|].
  destruct (N.eqb_spec n0 0xED) as [->|?]; [rewrite between_spec; lia|].
  rewrite cont_spec. lia.
Qed.

Lemma second4_spec (n0 n1 : N) :
  second4 n0 n1 = true ↔
  0x80 ≤ n1 ∧ n1 ≤ 0xBF ∧ (n0 = 0xF0 → 0x90 ≤ n1) ∧ (n0 = 0xF4 → n1 ≤ 0x8F).
Proof.
  unfold second4.
  destruct (N.eqb_spec n0 0xF0) as [->|?]; [rewrite between_spec; lia|].
  destruct (N.eqb_spec n0 0xF4) as [->|?]; [rewrite between_spec; lia|].
  rewrite cont_spec. lia.
Qed.

Lemma byte_of_to_N (b : byte) : byte_of (Byte.to_N b) = b.
Proof. unfold byte_of. by rewrite Byte.of_to_N. Qed.

Lemma byte_of_eq (n : N) (b : byte) : n = Byte.to_N b → byte_of n = b.
Proof. intros ->. apply byte_of_to_N. Qed.

Lemma to_N_byte_of (n : N) : n ≤ 255 → Byte.to_N (byte_of n) = n.
Proof.
  intros Hn. unfold byte_of. pose proof (Byte.to_of_N_option_map n) as H.
  destruct (N.leb_spec n 255); [|lia].
  destruct (Byte.of_N n); simpl in *; congruence.
Qed.

Lemma utf8_encode_char_is_Some (c : N) :
  is_Some (utf8_encode_char c) ↔ scalar c.
Proof.
  unfold utf8_encode_char, scalar, between.
  repeat match goal with
  | |- context [?a <? ?b] => destruct (N.ltb_spec a b)
  | |- context [?a <=? ?b] => destruct (N.leb_spec a b)
  end; simpl; (split; [intros [? ?]; (done || lia) | intros; (by eexists) || lia]).
Qed.

Lemma utf8_encode_is_Some (t : text) :
  is_Some (utf8_encode t) ↔ Forall scalar t.
Proof.
  induction t as [|c t IH]; simpl.
  - split; [constructor | by eexists].
  - rewrite Forall_cons, <-IH, <-utf8_encode_char_is_Some.
    destruct (utf8_encode_char c), (utf8_encode t); simpl;
      split; try (intros [? [=]]); try (intros [[? [=]] [? [=]]]);
      try (intros [[? ?] [? [=]]]); try (intros [[? [=]] _]); eauto.
Qed.

(** *** The four shapes of a well-formed sequence *)

Lemma utf8_decode_1 (b0 : byte) (rest : list byte) :
  Byte.to_N b0 < 0x80 →
  utf8_decode (b0 :: rest) = cons (Byte.to_N b0) <$> utf8_decode rest.
Proof. intros H%N.ltb_lt. simpl. by rewrite H. Qed.

Lemma utf8_decode_2 (b0 b1 : byte) (rest : list byte) :
  0xC2 ≤ Byte.to_N b0 ∧ Byte.to_N b0 ≤ 0xDF →
  cont (Byte.to_N b1) = true →
  utf8_decode (b0 :: b1 :: rest) =
    cons ((Byte.to_N b0 - 0xC0) * 0x40 + (Byte.to_N b1 - 0x80))
      <$> utf8_decode rest.
Proof.
  intros H0 H1. cbn [utf8_decode].
  destruct (N.ltb_spec (Byte.to_N b0) 0x80); [lia|].
  apply between_spec in H0. by rewrite H0, H1.
Qed.

Lemma utf8_decode_3 (b0 b1 b2 : byte) (rest : list byte) :
  0xE0 ≤ Byte.to_N b0 ∧ Byte.to_N b0 ≤ 0xEF →
  second3 (Byte.to_N b0) (Byte.to_N b1) = true →
  cont (Byte.to_N b2) = true →
  utf8_decode (b0 :: b1 :: b2 :: rest) =
    cons ((Byte.to_N b0 - 0xE0) * 0x1000 + (Byte.to_N b1 - 0x80) * 0x40
          + (Byte.to_N b2 - 0x80))
      <$> utf8_decode rest.
Proof.
  intros H0 H1 H2. cbn [utf8_decode].
  destruct (N.ltb_spec (Byte.to_N b0) 0x80); [lia|].
  destruct (between 0xC2 0xDF (Byte.to_N b0)) eqn:E.
  { apply between_spec in E. lia. }
  apply between_spec in H0. by rewrite H0, H1, H2.
Qed.

Lemma utf8_decode_4 (b0 b1 b2 b3 : byte) (rest : list byte) :
  0xF0 ≤ Byte.to_N b0 ∧ Byte.to_N b0 ≤ 0xF4 →
  second4 (Byte.to_N b0) (Byte.to_N b1) = true →
  cont (Byte.to_N b2) = true →
  cont (Byte.to_N b3) = true →
  utf8_decode (b0 :: b1 :: b2 :: b3 :: rest) =
    cons ((Byte.to_N b0 - 0xF0) * 0x40000 + (Byte.to_N b1 - 0x80) * 0x1000
          + (Byte.to_N b2 - 0x80) * 0x40 + (Byte.to_N b3 - 0x80))
      <$> utf8_decode rest.
Proof.
  intros H0 H1 H2 H3. cbn [utf8_decode].
  destruct (N.ltb_spec (Byte.to_N b0) 0x80); [lia|].
  destruct (between 0xC2 0xDF (Byte.to_N b0)) eqn:E.
  { apply between_spec in E. lia. }
  destruct (between 0xE0 0xEF (Byte.to_N b0)) eqn:E'.
  { apply between_spec in E'. lia. }
  apply between_spec in H0. by rewrite H0, H1, H2, H3.
Qed.

Ltac branches :=
  repeat match goal with
  | |- context [?a <? ?b] => destruct (N.ltb_spec a b)
  | |- context [?a <=? ?b] => destruct (N.leb_spec a b)
  end; simpl.

Lemma utf8_encode_char_1 (b0 : byte) :
  Byte.to_N b0 < 0x80 → utf8_encode_char (Byte.to_N b0) = Some [b0].
Proof.
  intros H%N.ltb_lt. unfold utf8_encode_char. by rewrite H, byte_of_to_N.
Qed.

Lemma utf8_encode_char_2 (b0 b1 : byte) :
  0xC2 ≤ Byte.to_N b0 ∧ Byte.to_N b0 ≤ 0xDF →
  cont (Byte.to_N b1) = true →
  utf8_encode_char ((Byte.to_N b0 - 0xC0) * 0x40 + (Byte.to_N b1 - 0x80))
  = Some [b0; b1].
Proof.
  intros H0 H1%cont_spec. unfold utf8_encode_char, between.
  branches; try nlia; f_equal; repeat (f_equal; try (apply byte_of_eq; nlia)).
Qed.

Lemma utf8_encode_char_3 (b0 b1 b2 : byte) :
  0xE0 ≤ Byte.to_N b0 ∧ Byte.to_N b0 ≤ 0xEF →
  second3 (Byte.to_N b0) (Byte.to_N b1) = true →
  cont (Byte.to_N b2) = true →
  utf8_encode_char ((Byte.to_N b0 - 0xE0) * 0x1000
                    + (Byte.to_N b1 - 0x80) * 0x40 + (Byte.to_N b2 - 0x80))
  = Some [b0; b1; b2].
Proof.
  intros H0 H1%second3_spec H2%cont_spec. unfold utf8_encode_char, between.
  branches; try nlia; f_equal; repeat (f_equal; try (apply byte_of_eq; nlia)).
Qed.

Lemma utf8_encode_char_4 (b0 b1 b2 b3 : byte) :
  0xF0 ≤ Byte.to_N b0 ∧ Byte.to_N b0 ≤ 0xF4 →
  second4 (Byte.to_N b0) (Byte.to_N b1) = true →
  cont (Byte.to_N b2) = true →
  cont (Byte.to_N b3) = true →
  utf8_encode_char ((Byte.to_N b0 - 0xF0) * 0x40000
                    + (Byte.to_N b1 - 0x80) * 0x1000
                    + (Byte.to_N b2 - 0x80) * 0x40 + (Byte.to_N b3 - 0x80))
  = Some [b0; b1; b2; b3].
Proof.
  intros H0 H1%second4_spec H2%cont_spec H3%cont_spec.
  unfold utf8_encode_char, between.
  branches; try nlia; f_equal; repeat (f_equal; try (apply byte_of_eq; nlia)).
Qed.

(** *** Decoding and encoding are inverse to each other *)

Lemma utf8_decode_encode (bs : list byte) (t : text) :
  utf8_decode bs = Some t → utf8_encode t = Some bs.
Proof.
  remember (length bs) as n eqn:Hn. revert bs t Hn.
  induction (lt_wf n) as [n _ IH]; intros bs t ->.
  assert (∀ rest t', (length rest < length bs)%nat →
            utf8_decode rest = Some t' → utf8_encode t' = Some rest) as IH'.
  { intros rest t' Hlen. by apply (IH (length rest)). }
  clear IH. destruct bs as [|b0 rest]; [by intros [= <-]|].
  cbn [utf8_decode].
  destruct (Byte.to_N b0 <? 0x80) eqn:E1.
  { apply N.ltb_lt in E1. intros (t' & Ht' & ->)%fmap_Some.
    cbn [utf8_encode]. rewrite utf8_encode_char_1 by done.
    rewrite (IH' rest t') by (simpl; lia || done). done. }
  destruct (between 0xC2 0xDF (Byte.to_N b0)) eqn:E2.
  { apply between_spec in E2. destruct rest as [|b1 rest]; [done|].
    destruct (cont (Byte.to_N b1)) eqn:E3; [|done].
    intros (t' & Ht' & ->)%fmap_Some.
    cbn [utf8_encode]. rewrite utf8_encode_char_2 by done.
    rewrite (IH' rest t') by (simpl; lia || done). done. }
  destruct (between 0xE0 0xEF (Byte.to_N b0)) eqn:E3.
  { apply between_spec in E3. destruct rest as [|b1 [|b2 rest]]; [done..|].
    destruct (second3 _ _) eqn:E4; [|done].
    destruct (cont (Byte.to_N b2)) eqn:E5; [|done].
    intros (t' & Ht' & ->)%fmap_Some.
    cbn [utf8_encode]. rewrite utf8_encode_char_3 by done.
    rewrite (IH' rest t') by (simpl; lia || done). done. }
  destruct (between 0xF0 0xF4 (Byte.to_N b0)) eqn:E4; [|done].
  apply between_spec in E4. destruct rest as [|b1 [|b2 [|b3 rest]]]; [done..|].
  destruct (second4 _ _) eqn:E5; [|done].
  destruct (cont (Byte.to_N b2)) eqn:E6; [|done].
  destruct (cont (Byte.to_N b3)) eqn:E7; [|done].
  intros (t' & Ht' & ->)%fmap_Some.
  cbn [utf8_encode]. rewrite utf8_encode_char_4 by done.
  rewrite (IH' rest t') by (simpl; lia || done). done.
Qed.

Lemma utf8_encode_char_decode (c : N) (sq rest : list byte) :
  utf8_encode_char c = Some sq →
  utf8_decode (sq ++ rest) = cons c <$> utf8_decode rest.
Proof.
  unfold utf8_encode_char, between. branches; intros [= <-]; cbn [app];
  first
    [ solve [ rewrite utf8_decode_4;
              rewrite ?second4_spec, ?cont_spec, !to_N_byte_of by nlia;
              [f_equal; f_equal; nlia | nlia..] ]
    | solve [ rewrite utf8_decode_3;
              rewrite ?second3_spec, ?cont_spec, !to_N_byte_of by nlia;
              [f_equal; f_equal; nlia | nlia..] ]
    | solve [ rewrite utf8_decode_2;
              rewrite ?cont_spec, !to_N_byte_of by nlia;
              [f_equal; f_equal; nlia | nlia..] ]
    | solve [ rewrite utf8_decode_1; rewrite !to_N_byte_of by nlia;
              [done | nlia] ] ].
Qed.

Lemma utf8_encode_decode (t : text) (bs : list byte) :
  utf8_encode t = Some bs → utf8_decode bs = Some t.
Proof.
  revert bs. induction t as [|c t IH]; intros bs; [by intros [= <-]|].
  cbn [utf8_encode]. destruct (utf8_encode_char c) as [sq|] eqn:Hc; [|done].
  destruct (utf8_encode t) as [bs'|]; [|done]. intros [= <-].
  rewrite (utf8_encode_char_decode _ _ _ Hc), (IH bs') by done. done.
Qed.

Lemma utf8_decode_scalar (bs : list byte) (t : text) :
  utf8_decode bs = Some t → Forall scalar t.
Proof.
  intros H%utf8_decode_encode. apply utf8_encode_is_Some. by eexists.
Qed.

Local Close Scope N_scope.

(** ** Line endings *)

Lemma universal_newlines_cons (c : N) (t : text) :
  universal_newlines (c :: t) =
    if (c =? CR)%N
    then LF :: universal_newlines
                 match t with
                 | c' :: t' => if (c' =? LF)%N then t' else t
                 | [] => []
                 end
    else c :: universal_newlines t.
Proof.
  cbn [universal_newlines]. destruct (c =? CR)%N; [|done].
  destruct t as [|c' t']; [done|]. by destruct (c' =? LF)%N.
Qed.

Lemma universal_newlines_Forall (P : N → Prop) (t : text) :
  P LF → Forall P t → Forall P (universal_newlines t).
Proof.
  intros HLF. remember (length t) as n eqn:Hn. revert t Hn.
  induction (lt_wf n) as [n _ IH]; intros t -> Ht.
  destruct t as [|c t]; [done|]. apply Forall_cons in Ht as [Hc Ht].
  rewrite universal_newlines_cons. destruct (c =? CR)%N.
  - constructor; [done|]. destruct t as [|c' t']; [done|].
    apply Forall_cons in Ht as [Hc' Ht']. destruct (c' =? LF)%N.
    + apply (IH (length t')); [simpl; lia|done..].
    + apply (IH (length (c' :: t'))); [simpl; lia|done|by constructor].
  - constructor; [done|]. by apply (IH (length t)); [simpl; lia|..].
Qed.

Lemma universal_newlines_no_CR (t : text) : CR ∉ universal_newlines t.
Proof.
  remember (length t) as n eqn:Hn. revert t Hn.
  induction (lt_wf n) as [n _ IH]; intros t ->.
  destruct t as [|c t]; [apply not_elem_of_nil|].
  rewrite universal_newlines_cons. destruct (N.eqb_spec c CR) as [->|Hc].
  - apply not_elem_of_cons. split; [done|]. destruct t as [|c' t'].
    + apply not_elem_of_nil.
    + destruct (c' =? LF)%N.
      * apply (IH (length t')); [simpl; lia|done].
      * apply (IH (length (c' :: t'))); [simpl; lia|done].
  - apply not_elem_of_cons. split; [done|].
    apply (IH (length t)); [simpl; lia|done].
Qed.

Lemma universal_newlines_id (t : text) : CR ∉ t → universal_newlines t = t.
Proof.
  induction t as [|c t IH]; [done|]. intros [Hc Ht]%not_elem_of_cons.
  rewrite universal_newlines_cons. destruct (N.eqb_spec c CR); [done|].
  by rewrite IH.
Qed.

Lemma write_newlines_cons (pf : platform) (c : N) (t : text) :
  write_newlines pf (c :: t) =
    (if (c =? LF)%N then linesep pf else [c]) ++ write_newlines pf t.
Proof. done. Qed.

Lemma write_newlines_Posix (t : text) : write_newlines Posix t = t.
Proof.
  induction t as [|c t IH]; [done|]. rewrite write_newlines_cons, IH.
  by destruct (N.eqb_spec c LF) as [->|].
Qed.

(** What was written with [os.linesep] reads back as it was, provided it
    had no CR of its own. *)
Lemma universal_write_newlines (pf : platform) (t : text) :
  CR ∉ t → universal_newlines (write_newlines pf t) = t.
Proof.
  induction t as [|c t IH]; [done|]. intros [Hc Ht]%not_elem_of_cons.
  rewrite write_newlines_cons. destruct (N.eqb_spec c LF) as [->|Hn].
  - destruct pf; simpl; by rewrite IH.
  - cbn [app]. rewrite universal_newlines_cons.
    destruct (N.eqb_spec c CR); [done|]. by rewrite IH.
Qed.

Lemma write_newlines_Forall (P : N → Prop) (pf : platform) (t : text) :
  P CR → Forall P t → Forall P (write_newlines pf t).
Proof.
  intros HCR. induction 1 as [|c t Hc Ht IH]; [done|].
  rewrite write_newlines_cons. apply Forall_app. split; [|done].
  destruct (N.eqb_spec c LF) as [->|]; [|by constructor].
  destruct pf; repeat constructor; done.
Qed.

(** [replace] only puts out characters of the text and of the replacement. *)
Lemma replace_Forall (P : N → Prop) (T s r : text) :
  Forall P T → Forall P r → Forall P (replace T s r).
Proof.
  intros HT Hr. destruct s as [|a s].
  - unfold replace. apply Forall_app. split; [done|].
    induction HT; [done|]. simpl. constructor; [done|].
    apply Forall_app. by split.
  - remember (length T) as n eqn:Hn. revert T Hn HT.
    induction (lt_wf n) as [n _ IH]; intros T -> HT.
    rewrite replace_unfold by done.
    destruct (find T (a :: s)) as [j|] eqn:Hj; [|done].
    apply find_bound in Hj. simpl in Hj.
    apply Forall_app. split; [by apply Forall_take|].
    apply Forall_app. split; [done|].
    apply (IH (length (drop (j + length (a :: s)) T))).
    + rewrite length_drop. simpl. lia.
    + done.
    + by apply Forall_drop.
Qed.

Lemma transform_Forall (P : N → Prop) (T : text) :
  Forall P replacement → Forall P T → Forall P (transform T).
Proof.
  intros Hr HT. rewrite transform_two_rules. unfold two_rules.
  apply replace_Forall; [|done]. by apply replace_Forall.
Qed.

Lemma replacement_scalar : Forall scalar replacement.
Proof.
  apply Forall_forall. intros c Hc. left.
  assert (Forall (λ c, c < 128)%N replacement) as H.
  { apply (bool_decide_unpack _). by vm_compute. }
  rewrite Forall_forall in H. specialize (H c Hc). simpl in H. lia.
Qed.

Lemma replacement_no_CR : CR ∉ replacement.
Proof. apply (bool_decide_unpack _). by vm_compute. Qed.

(** The text the script writes can always be encoded. *)
Lemma written_text_encodes (pf : platform) (bs : list byte) (t : text) :
  utf8_decode bs = Some t →
  is_Some (utf8_encode (write_newlines pf (transform (universal_newlines t)))).
Proof.
  intros Ht%utf8_decode_scalar. apply utf8_encode_is_Some.
  apply write_newlines_Forall; [by left|].
  apply transform_Forall; [apply replacement_scalar|].
  apply universal_newlines_Forall; [by left | done].
Qed.

Lemma not_elem_of_Forall (x : N) (l : text) :
  x ∉ l ↔ Forall (λ c, c ≠ x) l.
Proof.
  rewrite Forall_forall. split.
  - intros H c Hc ->. done.
  - intros H Hx. by apply (H x).
Qed.

(** The text the script writes has no CR. *)
Lemma written_text_no_CR (t : text) : CR ∉ transform (universal_newlines t).
Proof.
  apply not_elem_of_Forall, transform_Forall; apply not_elem_of_Forall.
  - apply replacement_no_CR.
  - apply universal_newlines_no_CR.
Qed.

(** ** Running the script *)

Lemma read_block_run (w : world) :
  read_block w =
    match files w !! filepath with
    | None => (Raise FileNotFoundError, log_r w)
    | Some f =>
        if readable f then
          match utf8_decode (data f) with
          | Some t => (Ok (universal_newlines t), log_r w)
          | None => (Raise UnicodeDecodeError, log_r w)
          end
        else (Raise PermissionError, log_r w)
    end.
Proof.
  unfold read_block, mbind, io_bind, open_, read, bytes_of, log_r.
  simpl. destruct (files w !! filepath) as [f|] eqn:Hf; [|done].
  destruct (readable f); [|done]. simpl. rewrite Hf. simpl.
  by destruct (utf8_decode (data f)).
Qed.

Lemma write_block_run (pf : platform) (content : text) (w : world) :
  write_block pf content w =
    let w1 := set_opened (opened w ++ [(filepath, W)]) w in
    let put bs rd := set_files (<[filepath := File bs rd true]> (files w)) w1 in
    match files w !! filepath, utf8_encode (write_newlines pf content) with
    | None, Some bs => (Ok (), put bs true)
    | None, None => (Raise UnicodeEncodeError, put [] true)
    | Some f, o =>
        if writable f then
          match o with
          | Some bs => (Ok (), put bs (readable f))
          | None => (Raise UnicodeEncodeError, put [] (readable f))
          end
        else (Raise PermissionError, w1)
    end.
Proof.
  unfold write_block, mbind, io_bind, open_, write.
  cbn [files opened stdout argv environ set_opened set_files].
  destruct (files w !! filepath) as [f|] eqn:Hf.
  - destruct (writable f); [|done].
    destruct (utf8_encode (write_newlines pf content)); [|done].
    cbn [files opened stdout argv environ set_opened set_files].
    by rewrite alter_insert_eq.
  - destruct (utf8_encode (write_newlines pf content)); [|done].
    cbn [files opened stdout argv environ set_opened set_files].
    by rewrite alter_insert_eq.
Qed.

Lemma main_run (pf : platform) (w : world) :
  main pf w =
    match files w !! filepath with
    | None => (Raise FileNotFoundError, log_r w)
    | Some f =>
        if readable f then
          match utf8_decode (data f) with
          | None => (Raise UnicodeDecodeError, log_r w)
          | Some t =>
              if writable f then
                match utf8_encode
                        (write_newlines pf (transform (universal_newlines t))) with
                | Some bs => (Ok (), after_success bs w)
                | None =>
                    (Raise UnicodeEncodeError,
                     set_files (<[filepath := File [] true true]> (files w))
                       (log_rw w))
                end
              else (Raise PermissionError, log_rw w)
          end
        else (Raise PermissionError, log_r w)
    end.
Proof.
  unfold main, mbind, io_bind. rewrite read_block_run.
  destruct (files w !! filepath) as [f|] eqn:Hf; [|done].
  destruct (readable f) eqn:Hr; [|done].
  destruct (utf8_decode (data f)) as [t|]; [|done].
  rewrite write_block_run. unfold log_r.
  cbn [files opened stdout argv environ set_opened set_files].
  rewrite Hf. destruct (writable f).
  - destruct (utf8_encode _); unfold print, after_success, log_rw;
      cbn [files opened stdout argv environ set_opened set_files set_stdout];
      by rewrite Hr, <-app_assoc.
  - unfold log_rw. by rewrite <-app_assoc.
Qed.

(** Every run of the script is one of these five. *)
Lemma main_cases (pf : platform) (w : world) :
  (files w !! filepath = None ∧
   main pf w = (Raise FileNotFoundError, log_r w)) ∨
  (∃ f, files w !! filepath = Some f ∧ readable f = false ∧
   main pf w = (Raise PermissionError, log_r w)) ∨
  (∃ f, files w !! filepath = Some f ∧ readable f = true ∧
   utf8_decode (data f) = None ∧
   main pf w = (Raise UnicodeDecodeError, log_r w)) ∨
  (∃ f t, files w !! filepath = Some f ∧ readable f = true ∧
   utf8_decode (data f) = Some t ∧ writable f = false ∧
   main pf w = (Raise PermissionError, log_rw w)) ∨
  (∃ f t bs, files w !! filepath = Some f ∧ readable f = true ∧
   utf8_decode (data f) = Some t ∧ writable f = true ∧
   utf8_encode (write_newlines pf (transform (universal_newlines t))) = Some bs ∧
   main pf w = (Ok (), after_success bs w)).
Proof.
  rewrite main_run.
  destruct (files w !! filepath) as [f|] eqn:Hf; [|by left].
  destruct (readable f) eqn:Hr; [|right; left; by exists f].
  destruct (utf8_decode (data f)) as [t|] eqn:Ht;
    [|right; right; left; by exists f].
  do 3 right. destruct (writable f) eqn:Hw; [|left; by exists f, t].
  right. destruct (written_text_encodes pf _ _ Ht) as [bs Hbs].
  exists f, t, bs. by rewrite Hbs.
Qed.

Lemma busy_world_target (f : file) :
  files (busy_world f) !! filepath = Some f.
Proof.
  unfold busy_world. cbn [files].
  rewrite lookup_insert_ne by done. apply lookup_singleton_eq.
Qed.

(** A second run finds nothing to do: it writes the bytes it read. *)
Lemma second_run_keeps_files (pf : platform) (w w' : world) :
  main pf w = (Ok (), w') →
  ∃ w'', main pf w' = (Ok (), w'') ∧ files w'' = files w'.
Proof.
  destruct (main_cases pf w)
    as [[Hf ->]|[(f & Hf & Hr & ->)|[(f & Hf & Hr & Ht & ->)
       |[(f & t & Hf & Hr & Ht & Hw & ->)|(f & t & bs & Hf & Hr & Ht & Hw & Hbs & ->)]]]];
    intros [= <-].
  exists (after_success bs (after_success bs w)). split.
  - rewrite main_run. cbn [after_success files]. rewrite lookup_insert_eq.
    cbn [readable writable data].
    rewrite (utf8_encode_decode _ _ Hbs).
    rewrite universal_write_newlines by apply written_text_no_CR.
    destruct (transform_clean (universal_newlines t)) as [HF Hf'].
    by rewrite (transform_absent _ HF Hf'), Hbs.
  - cbn [after_success files]. apply insert_insert_eq.
Qed.

(** ** The claims about a run *)

(** C5.  When the text read contains neither search string, the text handed
    to [write] is the text read, and the script succeeds and prints its
    notice provided the file can be opened for writing.  The bytes of the
    file are as before exactly when writing the decoded text back with the
    platform's line separator reproduces it, that is, when the line endings
    of the file are already the platform's. *)
Theorem absent_is_identity (pf : platform) (w : world) (f : file) (t : text) :
  files w !! filepath = Some f →
  readable f = true → writable f = true →
  utf8_decode (data f) = Some t →
  ¬ occurs search_F (universal_newlines t) →
  ¬ occurs search_f (universal_newlines t) →
  (read_block w).1 = Ok (universal_newlines t) ∧
  transform (universal_newlines t) = universal_newlines t ∧
  ∃ bs,
    utf8_encode (write_newlines pf (universal_newlines t)) = Some bs ∧
    main pf w = (Ok (), after_success bs w) ∧
    (files (after_success bs w) = files w ↔
     write_newlines pf (universal_newlines t) = t).
Proof.
  intros Hf Hr Hw Ht HF Hf'.
  pose proof (transform_absent _ HF Hf') as Hid.
  split; [by rewrite read_block_run, Hf, Hr, Ht|]. split; [done|].
  destruct (written_text_encodes pf _ _ Ht) as [bs Hbs].
  exists bs. rewrite Hid in Hbs. split; [done|].
  split; [by rewrite main_run, Hf, Hr, Ht, Hw, Hid, Hbs|].
  cbn [after_success files]. split.
  - intros Heq. assert (Some (File bs true true) = Some f) as [= <-].
    { by rewrite <-Hf, <-Heq, lookup_insert_eq. }
    apply utf8_encode_decode in Hbs. simpl in Ht. congruence.
  - intros Heq. rewrite Heq in Hbs. apply utf8_decode_encode in Ht.
    apply insert_id. rewrite Hf. f_equal. destruct f; simpl in *. congruence.
Qed.

Lemma absent_is_identity_witness :
  (read_block (world_of (File lf_bytes true true))).1
  = Ok (universal_newlines [97; 10; 98]%N) ∧
  transform (universal_newlines [97; 10; 98]%N)
  = universal_newlines [97; 10; 98]%N ∧
  ∃ bs,
    utf8_encode (write_newlines Posix (universal_newlines [97; 10; 98]%N))
    = Some bs ∧
    main Posix (world_of (File lf_bytes true true))
    = (Ok (), after_success bs (world_of (File lf_bytes true true))) ∧
    (files (after_success bs (world_of (File lf_bytes true true)))
     = files (world_of (File lf_bytes true true)) ↔
     write_newlines Posix (universal_newlines [97; 10; 98]%N)
     = [97; 10; 98]%N).
Proof.
  apply (absent_is_identity Posix (world_of (File lf_bytes true true))
           (File lf_bytes true true) [97; 10; 98]%N);
    try reflexivity; apply find_None; reflexivity.
Defined.

(** C5, as stated, fails: a file that contains neither search string and
    whose line endings are not the platform's is rewritten, although the
    run succeeds.  On Windows a file with LF line endings comes back with
    CR LF; on a POSIX system a file with CR LF line endings comes back
    with LF. *)
Lemma foreign_line_endings_are_rewritten :
  (read_block (world_of (File lf_bytes true true))).1 = Ok [97; 10; 98]%N ∧
  (read_block (world_of (File crlf_bytes true true))).1 = Ok [97; 10; 98]%N ∧
  contains [97; 10; 98]%N search_F = false ∧
  contains [97; 10; 98]%N search_f = false ∧
  (main Windows (world_of (File lf_bytes true true))).1 = Ok () ∧
  data <$> files (world_of (File lf_bytes true true)) !! filepath
  = Some [x61; x0a; x62] ∧
  data <$> files (main Windows (world_of (File lf_bytes true true))).2
             !! filepath
  = Some [x61; x0d; x0a; x62] ∧
  (main Posix (world_of (File crlf_bytes true true))).1 = Ok () ∧
  data <$> files (world_of (File crlf_bytes true true)) !! filepath
  = Some [x61; x0d; x0a; x62] ∧
  data <$> files (main Posix (world_of (File crlf_bytes true true))).2
             !! filepath
  = Some [x61; x0a; x62].
Proof. repeat split; by vm_compute. Qed.

(** C6.  When the target file is missing or cannot be opened for reading,
    the script raises a file-access error and stops there: the file store
    and standard output are as before, and the only [open] call made is the
    one for reading. *)
Theorem unreadable_fails (pf : platform) (w : world) :
  files w !! filepath = None ∨
  (∃ f, files w !! filepath = Some f ∧ readable f = false) →
  ∃ e w',
    main pf w = (Raise e, w') ∧
    is_OSError e = true ∧
    (files w !! filepath = None → e = FileNotFoundError) ∧
    files w' = files w ∧
    stdout w' = stdout w ∧
    opened w' = opened w ++ [(filepath, R)].
Proof.
  intros [Hf|(f & Hf & Hr)]; rewrite main_run, Hf.
  - by exists FileNotFoundError, (log_r w).
  - rewrite Hr. by exists PermissionError, (log_r w).
Qed.

Lemma unreadable_fails_witness :
  ∃ e w',
    main Posix empty_world = (Raise e, w') ∧
    is_OSError e = true ∧
    (files empty_world !! filepath = None → e = FileNotFoundError) ∧
    files w' = files empty_world ∧
    stdout w' = stdout empty_world ∧
    opened w' = opened empty_world ++ [(filepath, R)].
Proof. apply unreadable_fails. left. reflexivity. Defined.

(** C7.  A run either goes through both [with] blocks, returns and prints
    exactly the notice, or fails in one of them, raises and prints nothing.
    Whether it goes through depends on the file being there, readable,
    well-formed and writable, and not on what the text contains. *)
Theorem notice_iff_success (pf : platform) (w : world) :
  ∃ res w',
    main pf w = (res, w') ∧
    ((res = Ok () ∧ stdout w' = stdout w ++ [notice] ∧ steps_complete pf w) ∨
     ((∃ e, res = Raise e) ∧ stdout w' = stdout w ∧ ¬ steps_complete pf w)) ∧
    (steps_complete pf w ↔
     ∃ f t, files w !! filepath = Some f ∧ readable f = true ∧
            writable f = true ∧ utf8_decode (data f) = Some t).
Proof.
  assert (steps_complete pf w ↔
          ∃ f t, files w !! filepath = Some f ∧ readable f = true ∧
                 writable f = true ∧ utf8_decode (data f) = Some t) as Hsteps.
  { unfold steps_complete. setoid_rewrite read_block_run. split.
    - intros (content & w1 & w2 & Hread & Hwrite).
      destruct (files w !! filepath) as [f|] eqn:Hf; [|done].
      destruct (readable f) eqn:Hr; [|done].
      destruct (utf8_decode (data f)) as [t|] eqn:Ht; [|done].
      injection Hread as <- <-. rewrite write_block_run in Hwrite.
      cbn [log_r files set_opened] in Hwrite. rewrite Hf in Hwrite.
      destruct (writable f) eqn:Hw; [|done]. by exists f, t.
    - intros (f & t & Hf & Hr & Hw & Ht). rewrite Hf, Hr, Ht.
      destruct (written_text_encodes pf _ _ Ht) as [bs Hbs].
      eexists _, _, _. split; [done|]. rewrite write_block_run.
      cbn [log_r files set_opened]. by rewrite Hf, Hw, Hbs. }
  destruct (main_cases pf w)
    as [[Hf ->]|[(f & Hf & Hr & ->)|[(f & Hf & Hr & Ht & ->)
       |[(f & t & Hf & Hr & Ht & Hw & ->)|(f & t & bs & Hf & Hr & Ht & Hw & Hbs & ->)]]]];
    eexists _, _; (split; [done|]); (split; [|done]).
  - right. split; [by eexists|]. split; [done|].
    rewrite Hsteps. intros (? & ? & ? & _). congruence.
  - right. split; [by eexists|]. split; [done|].
    rewrite Hsteps. intros (? & ? & ? & ? & _). congruence.
  - right. split; [by eexists|]. split; [done|].
    rewrite Hsteps. intros (? & ? & ? & ? & ? & ?). congruence.
  - right. split; [by eexists|]. split; [done|].
    rewrite Hsteps. intros (? & ? & ? & ? & ? & ?). congruence.
  - left. split; [done|]. split; [done|]. apply Hsteps. by exists f, t.
Qed.

(** C8.  A run that succeeds changes the file store at the target path and
    nowhere else: the file there now holds the encoded transformed text and
    nothing of what it held before, no file is created, every other path
    holds what it held, and the only [open] calls are the two on the target
    path. *)
Theorem only_target_file_changes (pf : platform) (w w' : world) :
  main pf w = (Ok (), w') →
  ∃ f t bs,
    files w !! filepath = Some f ∧
    utf8_decode (data f) = Some t ∧
    utf8_encode (write_newlines pf (transform (universal_newlines t))) = Some bs ∧
    files w' = <[filepath := File bs (readable f) (writable f)]> (files w) ∧
    (∀ p, p ≠ filepath → files w' !! p = files w !! p) ∧
    dom (files w') = dom (files w) ∧
    opened w' = opened w ++ [(filepath, R); (filepath, W)].
Proof.
  destruct (main_cases pf w)
    as [[Hf ->]|[(f & Hf & Hr & ->)|[(f & Hf & Hr & Ht & ->)
       |[(f & t & Hf & Hr & Ht & Hw & ->)|(f & t & bs & Hf & Hr & Ht & Hw & Hbs & ->)]]]];
    intros [= <-].
  exists f, t, bs. rewrite Hr, Hw. cbn [after_success files opened].
  repeat (split; [done|]). split; [|split; [|done]].
  - intros p Hp. by rewrite lookup_insert_ne.
  - apply dom_insert_lookup_L. by rewrite Hf.
Qed.

Lemma only_target_file_changes_witness :
  ∃ f t bs,
    files (busy_world (File crlf_bytes true true)) !! filepath = Some f ∧
    utf8_decode (data f) = Some t ∧
    utf8_encode (write_newlines Windows (transform (universal_newlines t)))
    = Some bs ∧
    files (after_success crlf_bytes (busy_world (File crlf_bytes true true)))
    = <[filepath := File bs (readable f) (writable f)]>
        (files (busy_world (File crlf_bytes true true))) ∧
    (∀ p, p ≠ filepath →
          files (after_success crlf_bytes
                   (busy_world (File crlf_bytes true true))) !! p
          = files (busy_world (File crlf_bytes true true)) !! p) ∧
    dom (files (after_success crlf_bytes
                  (busy_world (File crlf_bytes true true))))
    = dom (files (busy_world (File crlf_bytes true true))) ∧
    opened (after_success crlf_bytes (busy_world (File crlf_bytes true true)))
    = opened (busy_world (File crlf_bytes true true))
      ++ [(filepath, R); (filepath, W)].
Proof.
  apply (only_target_file_changes Windows
           (busy_world (File crlf_bytes true true))).
  rewrite main_run, busy_world_target. reflexivity.
Defined.

(** C9.  The outcome of a run is determined by the target file, that is,
    by its bytes and by whether it can be opened for reading and for
    writing: two worlds that hold the same file at the target path give the
    same text read (hence the same transformed text), the same result, the
    same lines printed and the same [open] calls, whatever their arguments,
    environment, other files, earlier output and platform; on one platform
    they also leave the same file at the target path. *)
Theorem deterministic (pf1 pf2 : platform) (w1 w2 : world) :
  files w1 !! filepath = files w2 !! filepath →
  (read_block w1).1 = (read_block w2).1 ∧
  ∃ res out ops,
    (main pf1 w1).1 = res ∧ (main pf2 w2).1 = res ∧
    stdout (main pf1 w1).2 = stdout w1 ++ out ∧
    stdout (main pf2 w2).2 = stdout w2 ++ out ∧
    opened (main pf1 w1).2 = opened w1 ++ ops ∧
    opened (main pf2 w2).2 = opened w2 ++ ops ∧
    (pf1 = pf2 →
     files (main pf1 w1).2 !! filepath = files (main pf2 w2).2 !! filepath).
Proof.
  intros H. split.
  { rewrite !read_block_run, H.
    destruct (files w2 !! filepath) as [f|]; [|done].
    destruct (readable f); [|done]. by destruct (utf8_decode (data f)). }
  destruct (main_cases pf1 w1)
    as [[Hf ->]|[(f & Hf & Hr & ->)|[(f & Hf & Hr & Ht & ->)
       |[(f & t & Hf & Hr & Ht & Hw & ->)|(f & t & bs & Hf & Hr & Ht & Hw & Hbs & ->)]]]];
  destruct (main_cases pf2 w2)
    as [[Hf2 ->]|[(f2 & Hf2 & Hr2 & ->)|[(f2 & Hf2 & Hr2 & Ht2 & ->)
       |[(f2 & t2 & Hf2 & Hr2 & Ht2 & Hw2 & ->)
        |(f2 & t2 & bs2 & Hf2 & Hr2 & Ht2 & Hw2 & Hbs2 & ->)]]]];
  rewrite Hf, Hf2 in H; try discriminate H; try (injection H as <-);
    try congruence;
    cbn [fst snd log_r log_rw after_success files stdout opened set_opened].
  - exists (Raise FileNotFoundError), [], [(filepath, R)].
    by rewrite !app_nil_r, Hf, Hf2.
  - exists (Raise PermissionError), [], [(filepath, R)].
    by rewrite !app_nil_r, Hf, Hf2.
  - exists (Raise UnicodeDecodeError), [], [(filepath, R)].
    by rewrite !app_nil_r, Hf, Hf2.
  - exists (Raise PermissionError), [], [(filepath, R); (filepath, W)].
    by rewrite !app_nil_r, Hf, Hf2.
  - exists (Ok ()), [notice], [(filepath, R); (filepath, W)].
    repeat (split; [done|]). intros <-. rewrite !lookup_insert_eq. congruence.
Qed.

Lemma deterministic_witness :
  (read_block (world_of (File crlf_bytes true true))).1
  = (read_block (busy_world (File crlf_bytes true true))).1 ∧
  ∃ res out ops,
    (main Posix (world_of (File crlf_bytes true true))).1 = res ∧
    (main Windows (busy_world (File crlf_bytes true true))).1 = res ∧
    stdout (main Posix (world_of (File crlf_bytes true true))).2
    = stdout (world_of (File crlf_bytes true true)) ++ out ∧
    stdout (main Windows (busy_world (File crlf_bytes true true))).2
    = stdout (busy_world (File crlf_bytes true true)) ++ out ∧
    opened (main Posix (world_of (File crlf_bytes true true))).2
    = opened (world_of (File crlf_bytes true true)) ++ ops ∧
    opened (main Windows (busy_world (File crlf_bytes true true))).2
    = opened (busy_world (File crlf_bytes true true)) ++ ops ∧
    (Posix = Windows →
     files (main Posix (world_of (File crlf_bytes true true))).2 !! filepath
     = files (main Windows (busy_world (File crlf_bytes true true))).2
         !! filepath).
Proof.
  apply deterministic. rewrite busy_world_target. apply lookup_singleton_eq.
Defined.

(** C9, as stated, fails: two worlds whose target files have the same bytes,
    one of them read-only, do not print the same. *)
Lemma same_bytes_different_output :
  data <$> files (world_of (File crlf_bytes true true)) !! filepath
  = data <$> files (world_of (File crlf_bytes true false)) !! filepath ∧
  argv (world_of (File crlf_bytes true true))
  = argv (world_of (File crlf_bytes true false)) ∧
  environ (world_of (File crlf_bytes true true))
  = environ (world_of (File crlf_bytes true false)) ∧
  stdout (main Posix (world_of (File crlf_bytes true true))).2 = [notice] ∧
  stdout (main Posix (world_of (File crlf_bytes true false))).2 = [] ∧
  (main Posix (world_of (File crlf_bytes true false))).1
  = Raise PermissionError.
Proof. repeat split; by vm_compute. Qed.

(** * Part III: further properties of the script *)


(** [replace] neither adds nor removes a character that is in neither the
    search string nor the replacement. *)
Lemma replace_count (x : N) (T s r : text) :
  x ∉ s → x ∉ r →
  count_occ N.eq_dec (replace T s r) x = count_occ N.eq_dec T x.
Proof.
  intros Hs Hr.
  assert (∀ l : text, x ∉ l → count_occ N.eq_dec l x = 0) as Hzero.
  { intros l Hl. apply count_occ_not_In. intros Hin. apply Hl.
    by apply list_elem_of_In. }
  destruct s as [|a s].
  - unfold replace. rewrite count_occ_app, (Hzero r) by done. simpl.
    induction T as [|c T IH]; [done|].
    change ((c :: T) ≫= λ c, c :: r) with ((c :: r) ++ (T ≫= λ c, c :: r)).
    rewrite count_occ_app, IH. simpl. rewrite (Hzero r) by done.
    destruct (N.eq_dec c x); lia.
  - remember (length T) as n eqn:Hn. revert T Hn.
    induction (lt_wf n) as [n _ IH]; intros T ->.
    rewrite replace_unfold by done.
    destruct (find T (a :: s)) as [j|] eqn:Hj; [|done].
    pose proof (find_bound _ _ _ Hj) as Hb.
    pose proof (find_split _ _ _ Hj) as [HT _].
    replace (count_occ N.eq_dec T x)
      with (count_occ N.eq_dec
              (take j T ++ (a :: s) ++ drop (j + length (a :: s)) T) x)
      by (by rewrite <-HT).
    rewrite !count_occ_app, (Hzero r), (Hzero (a :: s)) by done.
    f_equal. f_equal.
    apply (IH (length (drop (j + length (a :: s)) T))); [|done].
    rewrite length_drop. simpl in *. lia.
Qed.

(** ** Further properties of the transformation *)

(** X1.  The transformation works piecewise: a text can be cut before any
    letter [m], and an occurrence of either search string, wherever it
    stands, becomes the replacement between the transformed text before it
    and the transformed text after it. *)
Theorem transform_piecewise (u v : text) :
  transform (u ++ marker :: v) = transform u ++ transform (marker :: v) ∧
  transform (u ++ search_F ++ v) = transform u ++ replacement ++ transform v ∧
  transform (u ++ search_f ++ v) = transform u ++ replacement ++ transform v.
Proof.
  assert (∀ u X, transform (u ++ marker :: X)
                 = transform u ++ transform (marker :: X)) as Hsplit.
  { apply (rules_split marker paren replacement tail_r tail_F tail_f
             replacement_eq marker_not_in_replacement marker_not_in_tail_F
             marker_not_in_tail_f paren_not_in_tail_f). }
  split; [apply Hsplit|]. split.
  - change (search_F ++ v) with (marker :: (tail_F ++ v)). rewrite Hsplit.
    f_equal.
    rewrite transform_two_rules,
      (both_first marker replacement marker_not_in_replacement tail_F tail_f)
      by apply startswith_self_cons.
    change (marker :: tail_F ++ v) with ((marker :: tail_F) ++ v).
    by rewrite drop_app_length.
  - change (search_f ++ v) with (marker :: (tail_f ++ v)). rewrite Hsplit.
    f_equal.
    rewrite transform_two_rules,
      (both_second marker replacement tail_F tail_f marker_not_in_tail_f).
    + change (marker :: tail_f ++ v) with ((marker :: tail_f) ++ v).
      by rewrite drop_app_length.
    + apply not_true_is_false.
      intros H%(exclusive marker tail_F tail_f eq_refl tails_differ).
      by rewrite startswith_self_cons in H.
    + apply startswith_self_cons.
Qed.

(** X2.  Every occurrence of either search string is replaced exactly once
    and nothing else is touched: the result is longer than the input by 23
    characters (40 for the replacement less 17 for the search string) for
    each index at which a search string occurs. *)
Theorem transform_length (T : text) :
  length (transform T)
  = length T + 23 * (occurrences search_F T + occurrences search_f T).
Proof.
  pose proof (rules_length marker paren replacement tail_r tail_F tail_f
                replacement_eq marker_not_in_replacement marker_not_in_tail_F
                marker_not_in_tail_f paren_not_in_tail_f eq_refl tails_differ T)
    as H.
  rewrite transform_two_rules.
  change (length (marker :: tail_F)) with 17 in H.
  change (length replacement) with 40 in H.
  change (marker :: tail_F) with search_F in H.
  change (marker :: tail_f) with search_f in H.
  lia.
Qed.

(** X3.  The two [replace] calls neither add nor remove a character
    that occurs in neither search string nor in the replacement: such a
    character occurs in [transform T] exactly as often as in [T]. *)
Theorem transform_keeps_other_characters (x : N) (T : text) :
  x ∉ search_F → x ∉ search_f → x ∉ replacement →
  count_occ N.eq_dec (transform T) x = count_occ N.eq_dec T x.
Proof.
  intros HF Hf Hr. rewrite transform_two_rules. unfold two_rules.
  by rewrite !replace_count.
Qed.

Lemma transform_keeps_other_characters_witness :
  count_occ N.eq_dec
    (transform (str "x = mockFilterUsersV2;" ++ LF :: str "mockfilterUsersV2"))
    LF
  = count_occ N.eq_dec
      (str "x = mockFilterUsersV2;" ++ LF :: str "mockfilterUsersV2") LF.
Proof.
  apply transform_keeps_other_characters;
    apply (bool_decide_unpack _); vm_compute; exact I.
Defined.

(** ** Further properties of a run *)

(** X4.  A file that can be read but is not well-formed UTF-8 makes the
    script raise [UnicodeDecodeError] in the first [with] block: the file
    is never opened for writing, the file store and standard output are as
    before. *)
Theorem undecodable_fails (pf : platform) (w : world) (f : file) :
  files w !! filepath = Some f →
  readable f = true →
  utf8_decode (data f) = None →
  ∃ w',
    main pf w = (Raise UnicodeDecodeError, w') ∧
    files w' = files w ∧
    stdout w' = stdout w ∧
    opened w' = opened w ++ [(filepath, R)].
Proof.
  intros Hf Hr Ht. exists (log_r w). by rewrite main_run, Hf, Hr, Ht.
Qed.

Lemma undecodable_fails_witness :
  ∃ w',
    main Windows (busy_world (File [xc3; x28] true true))
    = (Raise UnicodeDecodeError, w') ∧
    files w' = files (busy_world (File [xc3; x28] true true)) ∧
    stdout w' = stdout (busy_world (File [xc3; x28] true true)) ∧
    opened w' = opened (busy_world (File [xc3; x28] true true))
                ++ [(filepath, R)].
Proof.
  apply (undecodable_fails Windows _ (File [xc3; x28] true true));
    [apply busy_world_target | reflexivity | reflexivity].
Defined.





(** X7.  After a run that succeeds, reading the file the way the script
    reads it gives exactly the transformed text, on either platform: what
    the script writes is what a later run reads, and it holds neither
    search string. *)
Theorem written_text_reads_back
    (pf : platform) (w w1 w' : world) (content : text) :
  read_block w = (Ok content, w1) →
  main pf w = (Ok (), w') →
  (read_block w').1 = Ok (transform content) ∧
  contains (transform content) search_F = false ∧
  contains (transform content) search_f = false.
Proof.
  rewrite read_block_run. intros Hread Hmain. split.
  - revert Hmain. destruct (main_cases pf w)
      as [[Hf ->]|[(f & Hf & Hr & ->)|[(f & Hf & Hr & Ht & ->)
         |[(f & t & Hf & Hr & Ht & Hw & ->)|(f & t & bs & Hf & Hr & Ht & Hw & Hbs & ->)]]]];
      intros [= <-].
    rewrite Hf, Hr, Ht in Hread. injection Hread as <- _.
    rewrite read_block_run. cbn [after_success files].
    rewrite lookup_insert_eq. cbn [readable data].
    rewrite (utf8_encode_decode _ _ Hbs). cbn [fst]. f_equal.
    apply universal_write_newlines, written_text_no_CR.
  - destruct (transform_clean content) as [HF Hf].
    split; apply not_true_is_false; by rewrite contains_occurs.
Qed.

Lemma written_text_reads_back_witness :
  (read_block (after_success crlf_bytes
                 (busy_world (File lf_bytes true true)))).1
  = Ok (transform [97; 10; 98]%N) ∧
  contains (transform [97; 10; 98]%N) search_F = false ∧
  contains (transform [97; 10; 98]%N) search_f = false.
Proof.
  apply (written_text_reads_back Windows
           (busy_world (File lf_bytes true true))
           (log_r (busy_world (File lf_bytes true true)))).
  - rewrite read_block_run, busy_world_target. reflexivity.
  - rewrite main_run, busy_world_target. reflexivity.
Defined.

(** X8.  Running the script a second time on the file it has just written
    succeeds, prints the notice once more and writes the very bytes it
    found: after one run the file is a fixed point of the script. *)
Theorem second_run_is_idle (pf : platform) (w w' : world) :
  main pf w = (Ok (), w') →
  ∃ w'',
    main pf w' = (Ok (), w'') ∧
    files w'' = files w' ∧
    stdout w'' = stdout w' ++ [notice].
Proof.
  destruct (main_cases pf w)
    as [[Hf ->]|[(f & Hf & Hr & ->)|[(f & Hf & Hr & Ht & ->)
       |[(f & t & Hf & Hr & Ht & Hw & ->)|(f & t & bs & Hf & Hr & Ht & Hw & Hbs & ->)]]]];
    intros [= <-].
  exists (after_success bs (after_success bs w)). split; [|split; [|done]].
  - rewrite main_run. cbn [after_success files]. rewrite lookup_insert_eq.
    cbn [readable writable data].
    rewrite (utf8_encode_decode _ _ Hbs).
    rewrite universal_write_newlines by apply written_text_no_CR.
    destruct (transform_clean (universal_newlines t)) as [HF Hf'].
    by rewrite (transform_absent _ HF Hf'), Hbs.
  - cbn [after_success files]. apply insert_insert_eq.
Qed.

Lemma second_run_is_idle_witness :
  ∃ w'',
    main Windows (after_success crlf_bytes
                    (busy_world (File lf_bytes true true)))
    = (Ok (), w'') ∧
    files w''
    = files (after_success crlf_bytes (busy_world (File lf_bytes true true))) ∧
    stdout w''
    = stdout (after_success crlf_bytes (busy_world (File lf_bytes true true)))
      ++ [notice].
Proof.
  apply (second_run_is_idle Windows (busy_world (File lf_bytes true true))).
  rewrite main_run, busy_world_target. reflexivity.
Defined.

(** X9.  An empty target file stays empty: the run succeeds, prints the
    notice and leaves the file store as it was. *)
Theorem empty_file_stays_empty (pf : platform) (w : world) (f : file) :
  files w !! filepath = Some f →
  data f = [] → readable f = true → writable f = true →
  ∃ w',
    main pf w = (Ok (), w') ∧
    files w' = files w ∧
    stdout w' = stdout w ++ [notice].
Proof.
  intros Hf Hd Hr Hw. exists (after_success [] w).
  rewrite main_run, Hf, Hr, Hw, Hd. split; [done|]. split; [|done].
  cbn [after_success files]. apply insert_id. rewrite Hf. f_equal.
  destruct f; simpl in *; congruence.
Qed.

Lemma empty_file_stays_empty_witness :
  ∃ w',
    main Windows (busy_world (File [] true true)) = (Ok (), w') ∧
    files w' = files (busy_world (File [] true true)) ∧
    stdout w' = stdout (busy_world (File [] true true)) ++ [notice].
Proof.
  apply (empty_file_stays_empty Windows _ (File [] true true));
    [apply busy_world_target | reflexivity..].
Defined.

(** ** Further properties of the text layer under [open] *)

(** X10.  Strict UTF-8 decoding and encoding are inverse to each other:
    bytes decode to a text exactly when that text encodes to those bytes;
    and a decoded text holds no surrogate and nothing above U+10FFFF. *)
Theorem utf8_round_trip (bs : list byte) (t : text) :
  (utf8_decode bs = Some t ↔ utf8_encode t = Some bs) ∧
  (utf8_decode bs = Some t → Forall scalar t).
Proof.
  split; [split|].
  - apply utf8_decode_encode.
  - apply utf8_encode_decode.
  - apply utf8_decode_scalar.
Qed.

(** X11.  The text the script reads never holds a carriage return; reading
    is idempotent on line endings; and a text that has been read, written
    with the platform's line separator and read again is the same text, on
    either platform. *)
Theorem newlines_round_trip (pf : platform) (t : text) :
  (CR ∉ universal_newlines t) ∧
  universal_newlines (universal_newlines t) = universal_newlines t ∧
  universal_newlines (write_newlines pf (universal_newlines t))
  = universal_newlines t.
Proof.
  pose proof (universal_newlines_no_CR t) as H.
  split; [done|]. split.
  - by apply universal_newlines_id.
  - by apply universal_write_newlines.
Qed.

(** X12.  For every non-empty search string, and not only for the two of
    the script, [replace] computes the leftmost non-overlapping
    replacement, and that result is the only one: the loop of [replace]
    never stops short of the end of the text. *)
Theorem replace_is_leftmost (T s r : text) :
  s ≠ [] →
  Replaced s r T (replace T s r) ∧
  (∀ O, Replaced s r T O → O = replace T s r).
Proof.
  intros Hs. split; [by apply Replaced_replace|].
  intros O HO. apply (Replaced_functional _ _ _ _ _ HO).
  by apply Replaced_replace.
Qed.

Lemma replace_is_leftmost_witness :
  Replaced (str "aa") (str "b") (str "aaaaa")
    (replace (str "aaaaa") (str "aa") (str "b")) ∧
  (∀ O, Replaced (str "aa") (str "b") (str "aaaaa") O →
        O = replace (str "aaaaa") (str "aa") (str "b")).
Proof. apply replace_is_leftmost. discriminate. Defined.
